(** * Trace enrichment core of opentonapi (package [core])

    A shallow embedding of [pkg/core]'s trace model: the completeness
    tracker ([InProgress] / [countUncompleted]), the traversal primitive
    [visit] and the batched enrichment entry point [CollectAdditionalInfo],
    followed by the properties the specification states about them. *)

From stdpp Require Import gmap strings list.
From Stdlib Require Import Ascii.

Local Open Scope Z_scope.

(** ** External library types *)

(** [tongo.AccountID] is a struct of a workchain number (int32) and a
    32-byte address, compared field by field; the address is kept as the
    256-bit number its bytes spell. *)
Module tongo.
Record AccountID := mkAccountID { Workchain : Z; Address : N }.

#[global] Instance AccountID_eq_dec : EqDecision AccountID.
Proof. solve_decision. Defined.

#[global] Instance AccountID_countable : Countable AccountID :=
  inj_countable' (λ a, (Workchain a, Address a))
                 (λ p, mkAccountID p.1 p.2)
                 (λ a, match a with mkAccountID _ _ => eq_refl end).
End tongo.

(** [tongo/abi]: interface tags and message operation names are strings. *)
Module abi.
Definition ContractInterface := string.
Definition NftSale : ContractInterface := "nft_sale".
Definition NftSaleGetgems : ContractInterface := "nft_sale_getgems".
Definition JettonTransferMsgOp : string := "JettonTransfer".
End abi.

(** Go's [error] values are kept as their message. *)
Definition error := string.

(** ** Data model *)

(** Modelled from the spec: the declarations of [Transaction], [Message]
    and [DecodedMessageBody] are in files of the package that are not at
    hand.  A transaction has zero or one inbound message and zero or more
    outbound messages (the filtered list); of the three structs only the
    fields read here are kept: [Account], [InMsg], [OutMsgs],
    [Destination], [DecodedBody] and [Operation]. *)
Record DecodedMessageBody := mkDecodedMessageBody { Operation : string }.

Record Message := mkMessage {
  Destination : option tongo.AccountID;
  DecodedBody : option DecodedMessageBody
}.

Record Transaction := mkTransaction {
  Account : tongo.AccountID;
  InMsg : option Message;
  OutMsgs : list Message
}.

(** NftSaleContract holds partial results of get_sale_data method. *)
Record NftSaleContract := mkNftSaleContract {
  NftPrice : Z;
  Owner : option tongo.AccountID
}.

(** TraceAdditionalInfo holds information about a trace but not directly
    extracted from it.  Its second field is the struct's [NftSaleContract]
    (the trailing underscore keeps it apart from the type of that name). *)
Record TraceAdditionalInfo := mkTraceAdditionalInfo {
  JettonMaster : option tongo.AccountID;
  NftSaleContract_ : option NftSaleContract
}.

(** A [Trace] embeds its transaction ([Tx]); every child is owned by its
    parent alone, so the pointer structure is a tree. *)
Local Unset Elimination Schemes.
Inductive Trace := mkTrace {
  Tx : Transaction;
  AccountInterfaces : list abi.ContractInterface;
  Children : list Trace;
  AdditionalInfo : option TraceAdditionalInfo
}.
Local Set Elimination Schemes.

(** ** Completeness tracker *)

(** Go's [int] is 64 bits wide: additions wrap in two's complement. *)
Definition int_wrap (z : Z) : Z := (z + 2 ^ 63) mod 2 ^ 64 - 2 ^ 63.
Definition int_add (a b : Z) : Z := int_wrap (a + b).

Fixpoint countUncompleted (t : Trace) : Z :=
  match t with
  | mkTrace tx _ children _ =>
      let c := Z.of_nat (length (OutMsgs tx)) in
      foldl (λ c st, int_add c (countUncompleted st)) c children
  end.

Definition InProgress (t : Trace) : bool :=
  negb (countUncompleted t =? 0).

(** ** Classification predicates *)

Definition isDestinationJettonWallet (inMsg : option Message) : bool :=
  match inMsg with
  | None => false
  | Some m =>
      match DecodedBody m with
      | None => false
      | Some body =>
          String.eqb (Operation body) abi.JettonTransferMsgOp
          && bool_decide (is_Some (Destination m))
      end
  end.

Fixpoint hasInterface (interfacesList : list abi.ContractInterface)
    (name : abi.ContractInterface) : bool :=
  match interfacesList with
  | [] => false
  | iface :: rest =>
      if String.eqb iface name then true else hasInterface rest name
  end.

(** ** Traversal primitive *)

(** A visitor is a closure called on a node: it reads the node, updates the
    variables it captured (the state [St]) and may assign the node's
    [AdditionalInfo], the one field of a trace this package writes.  It
    answers with the node's [AdditionalInfo] after the call and the new
    state. *)
Definition visitor (St : Type) : Type :=
  Trace → St → option TraceAdditionalInfo * St.

Fixpoint visit {St : Type} (trace : Trace) (fn : visitor St) (s : St)
    : Trace * St :=
  match trace with
  | mkTrace tx ifaces children _ =>
      let '(info, s) := fn trace s in
      let '(children, s) :=
        (fix range (cs : list Trace) (s : St) : list Trace * St :=
           match cs with
           | [] => ([], s)
           | child :: rest =>
               let '(child, s) := visit child fn s in
               let '(rest, s) := range rest s in
               (child :: rest, s)
           end) children s in
      (mkTrace tx ifaces children info, s)
  end.

(** The loop over [trace.Children], as a function of its own. *)
Fixpoint visit_range {St : Type} (cs : list Trace) (fn : visitor St) (s : St)
    : list Trace * St :=
  match cs with
  | [] => ([], s)
  | child :: rest =>
      let '(child, s) := visit child fn s in
      let '(rest, s) := visit_range rest fn s in
      (child :: rest, s)
  end.

(** ** Information source *)

(** One entry per call made to the information source. *)
Inductive Query :=
  | QJettonMastersForWallets (wallets : list tongo.AccountID)
  | QGetGemsContracts (getGems : list tongo.AccountID)
  | QNftSaleContracts (contracts : list tongo.AccountID).

Section Enrichment.

(** [Ctx] stands for [context.Context]; [Σ] is whatever state the
    external source keeps between calls. *)
Context {Ctx Σ : Type}.

(** InformationSource provides methods to construct TraceAdditionalInfo.
    Each method answers with Go's pair (map, error) and the source's next
    state. *)
Record InformationSource := mkInformationSource {
  JettonMastersForWallets :
    Ctx → list tongo.AccountID → Σ →
    (gmap tongo.AccountID tongo.AccountID * option error) * Σ;
  GetGemsContracts :
    Ctx → list tongo.AccountID → Σ →
    (gmap tongo.AccountID NftSaleContract * option error) * Σ;
  NftSaleContracts :
    Ctx → list tongo.AccountID → Σ →
    (gmap tongo.AccountID NftSaleContract * option error) * Σ
}.

(** Computations that talk to the source: they thread its state and the
    log of the queries issued so far. *)
Definition M (A : Type) : Type := Σ * list Query → A * (Σ * list Query).

#[global] Instance M_ret : MRet M := λ A a w, (a, w).
#[global] Instance M_bind : MBind M :=
  λ A B k m w, let '(a, w) := m w in k a w.

Definition query {A} (q : Query) (method : Σ → A * Σ) : M A :=
  λ '(σ, log), let '(a, σ) := method σ in (a, (σ, log ++ [q])).

(** The three slices the first walk fills. *)
Record Candidates := mkCandidates {
  jettonWallets : list tongo.AccountID;
  getGemsContracts : list tongo.AccountID;
  basicNftSale : list tongo.AccountID
}.

(** [*trace.InMsg.Destination], when both pointers are set. *)
Definition inMsgDestination (inMsg : option Message)
    : option tongo.AccountID :=
  inMsg ≫= Destination.

(** The closure of the first walk: it appends to the three slices and
    leaves the node alone.  The dereference of the destination cannot
    fail once [isDestinationJettonWallet] holds. *)
Definition collect : visitor Candidates := λ trace c,
  let c :=
    if isDestinationJettonWallet (InMsg (Tx trace)) then
      match inMsgDestination (InMsg (Tx trace)) with
      | Some dest =>
          mkCandidates (jettonWallets c ++ [dest])
                       (getGemsContracts c) (basicNftSale c)
      | None => c
      end
    else c in
  let c :=
    if hasInterface (AccountInterfaces trace) abi.NftSaleGetgems then
      mkCandidates (jettonWallets c)
                   (getGemsContracts c ++ [Account (Tx trace)])
                   (basicNftSale c)
    else c in
  let c :=
    if hasInterface (AccountInterfaces trace) abi.NftSale then
      mkCandidates (jettonWallets c) (getGemsContracts c)
                   (basicNftSale c ++ [Account (Tx trace)])
    else c in
  (AdditionalInfo trace, c).

(** The closure of the second walk, over the three resolved maps. *)
Definition assign
    (masters : gmap tongo.AccountID tongo.AccountID)
    (getGems basicNftSales : gmap tongo.AccountID NftSaleContract)
    : visitor () := λ trace s,
  let info := mkTraceAdditionalInfo None None in
  let info :=
    if isDestinationJettonWallet (InMsg (Tx trace)) then
      match inMsgDestination (InMsg (Tx trace)) with
      | Some dest =>
          match masters !! dest with
          | Some master =>
              mkTraceAdditionalInfo (Some master) (NftSaleContract_ info)
          | None => info
          end
      | None => info
      end
    else info in
  let info :=
    if hasInterface (AccountInterfaces trace) abi.NftSaleGetgems then
      match getGems !! Account (Tx trace) with
      | Some getgems =>
          mkTraceAdditionalInfo (JettonMaster info) (Some getgems)
      | None => info
      end
    else info in
  let info :=
    if hasInterface (AccountInterfaces trace) abi.NftSale then
      match basicNftSales !! Account (Tx trace) with
      | Some sale => mkTraceAdditionalInfo (JettonMaster info) (Some sale)
      | None => info
      end
    else info in
  (Some info, s).

(** CollectAdditionalInfo goes over the whole trace and populates
    trace.TraceAdditionalInfo based on information provided by
    InformationSource.  A nil interface value is [None].  The answer is
    the tree after the call and the returned error. *)
Definition CollectAdditionalInfo (ctx : Ctx)
    (infoSource : option InformationSource) (trace : Trace)
    : M (Trace * option error) :=
  match infoSource with
  | None => mret (trace, None)
  | Some infoSource =>
      let '(_, c) := visit trace collect (mkCandidates [] [] []) in
      '(masters, err) ←
        query (QJettonMastersForWallets (jettonWallets c))
              (JettonMastersForWallets infoSource ctx (jettonWallets c));
      match err with
      | Some _ => mret (trace, err)
      | None =>
          '(getGems, err) ←
            query (QGetGemsContracts (getGemsContracts c))
                  (GetGemsContracts infoSource ctx (getGemsContracts c));
          match err with
          | Some _ => mret (trace, err)
          | None =>
              '(basicNftSales, err) ←
                query (QNftSaleContracts (basicNftSale c))
                      (NftSaleContracts infoSource ctx (basicNftSale c));
              match err with
              | Some _ => mret (trace, err)
              | None =>
                  let '(trace, _) :=
                    visit trace (assign masters getGems basicNftSales) () in
                  mret (trace, None)
              end
          end
      end
  end.

End Enrichment.

Arguments InformationSource : clear implicits.
Arguments M : clear implicits.

(** ** Vocabulary of the specification *)

(** The nodes of a tree in pre-order: a node, then the nodes of each child
    in the order of [Children]. *)
Fixpoint preorder (t : Trace) : list Trace :=
  match t with
  | mkTrace _ _ children _ => t :: (children ≫= preorder)
  end.

(** A node is addressed by the child indices leading to it from the root. *)
Fixpoint node_at (path : list nat) (t : Trace) : option Trace :=
  match path with
  | [] => Some t
  | i :: rest => Children t !! i ≫= node_at rest
  end.

(** The paths of all nodes, in pre-order. *)
Fixpoint paths (t : Trace) : list (list nat) :=
  match t with
  | mkTrace _ _ children _ =>
      [] :: (fix range (i : nat) (cs : list Trace) : list (list nat) :=
               match cs with
               | [] => []
               | child :: rest =>
                   (cons i <$> paths child) ++ range (S i) rest
               end) 0%nat children
  end.

Fixpoint paths_range (i : nat) (cs : list Trace) : list (list nat) :=
  match cs with
  | [] => []
  | child :: rest => (cons i <$> paths child) ++ paths_range (S i) rest
  end.

(** The number of outbound messages left in a node's filtered list, and
    their sum over every node of a tree. *)
Definition unmatched (n : Trace) : nat := length (OutMsgs (Tx n)).

Definition unmatched_total (t : Trace) : nat :=
  sum_list (unmatched <$> preorder t).

(** The tree is small enough for the count to be a Go [int]. *)
Definition fits_int (t : Trace) : Prop :=
  Z.of_nat (unmatched_total t) < 2 ^ 63.

(** Two trees of the same shape whose corresponding nodes hold the same
    number of filtered outbound messages. *)
Local Unset Elimination Schemes.
Inductive same_outbound_shape : Trace → Trace → Prop :=
  | same_outbound_node tx1 ifaces1 cs1 info1 tx2 ifaces2 cs2 info2 :
      length (OutMsgs tx1) = length (OutMsgs tx2) →
      Forall2 same_outbound_shape cs1 cs2 →
      same_outbound_shape (mkTrace tx1 ifaces1 cs1 info1)
                          (mkTrace tx2 ifaces2 cs2 info2).
Local Set Elimination Schemes.

(** Calling a visitor on the nodes of a list, one after the other: the
    [AdditionalInfo] each call leaves on its node, and the final state. *)
Fixpoint walk {St : Type} (fn : visitor St) (nodes : list Trace) (s : St)
    : list (option TraceAdditionalInfo) * St :=
  match nodes with
  | [] => ([], s)
  | n :: rest =>
      let '(info, s) := fn n s in
      let '(infos, s) := walk fn rest s in
      (info :: infos, s)
  end.

(** The token-transfer destination of a node, in the specification's
    words: the inbound message is present, decoded, has the token-transfer
    operation and carries a destination. *)
Definition jetton_candidate (n : Trace) : option tongo.AccountID :=
  m ← InMsg (Tx n);
  body ← DecodedBody m;
  if decide (Operation body = abi.JettonTransferMsgOp)
  then Destination m else None.

Definition has_capability (name : abi.ContractInterface) (n : Trace) : Prop :=
  name ∈ AccountInterfaces n.

#[global] Instance has_capability_dec name n :
  Decision (has_capability name n).
Proof. unfold has_capability, abi.ContractInterface. apply _. Defined.

(** The three candidate sequences of a tree: the qualifying addresses in
    pre-order, duplicates kept. *)
Definition jetton_wallet_candidates (t : Trace) : list tongo.AccountID :=
  omap jetton_candidate (preorder t).

Definition sale_candidates (name : abi.ContractInterface) (t : Trace)
    : list tongo.AccountID :=
  (λ n, Account (Tx n)) <$> filter (has_capability name) (preorder t).

(** The three queries of one enrichment, in their fixed order. *)
Definition expected_queries (t : Trace) : list Query :=
  [ QJettonMastersForWallets (jetton_wallet_candidates t);
    QGetGemsContracts (sale_candidates abi.NftSaleGetgems t);
    QNftSaleContracts (sale_candidates abi.NftSale t) ].

(** The annotation of a node, in the specification's words: each field is
    the lookup of the node's key in the map of its kind, and a basic-sale
    resolution takes precedence over a marketplace-variant one. *)
Definition resolved_info
    (masters : gmap tongo.AccountID tongo.AccountID)
    (getGems basicNftSales : gmap tongo.AccountID NftSaleContract)
    (tx : Transaction) (ifaces : list abi.ContractInterface)
    : TraceAdditionalInfo :=
  let node := mkTrace tx ifaces [] None in
  let marketplace :=
    if decide (has_capability abi.NftSaleGetgems node)
    then getGems !! Account tx else None in
  let basic :=
    if decide (has_capability abi.NftSale node)
    then basicNftSales !! Account tx else None in
  {| JettonMaster := jetton_candidate node ≫= (masters !!.);
     NftSaleContract_ := from_option Some marketplace basic |}.

(** No node of the tree carries an annotation. *)
Definition unannotated (t : Trace) : Prop :=
  Forall (λ n, AdditionalInfo n = None) (preorder t).

(** The slices one walk of the collector builds, starting from empty ones. *)
Definition candidates (t : Trace) : Candidates :=
  (visit t collect (mkCandidates [] [] [])).2.

(** A visitor whose answer depends on a node's transaction and interfaces
    only. *)
Definition reads_header_only {St} (fn : visitor St) : Prop :=
  ∀ n n' s, Tx n = Tx n' → AccountInterfaces n = AccountInterfaces n' →
            fn n s = fn n' s.

Definition state_reads_header_only {St} (fn : visitor St) : Prop :=
  ∀ n n' s, Tx n = Tx n' → AccountInterfaces n = AccountInterfaces n' →
            (fn n s).2 = (fn n' s).2.

Section Outcomes.
Context {Ctx Σ : Type}.
Implicit Types (src : InformationSource Ctx Σ) (σ : Σ).

(** The parts of what a call of [CollectAdditionalInfo] leaves. *)
Definition tree_after (r : (Trace * option error) * (Σ * list Query))
  : Trace := r.1.1.
Definition error_of (r : (Trace * option error) * (Σ * list Query))
  : option error := r.1.2.
Definition source_after (r : (Trace * option error) * (Σ * list Query))
  : Σ := r.2.1.
Definition queries_of (r : (Trace * option error) * (Σ * list Query))
  : list Query := r.2.2.

(** The three queries, issued in order from source state [σ], all succeed
    and answer with the given maps. *)
Definition all_succeed ctx src (t : Trace) σ masters getGems basicNftSales σ3
    : Prop :=
  ∃ σ1 σ2,
    JettonMastersForWallets src ctx (jettonWallets (candidates t)) σ
      = ((masters, None), σ1)
    ∧ GetGemsContracts src ctx (getGemsContracts (candidates t)) σ1
      = ((getGems, None), σ2)
    ∧ NftSaleContracts src ctx (basicNftSale (candidates t)) σ2
      = ((basicNftSales, None), σ3).

(** One of the queries issued from source state [σ] answers with the
    error [e] (the queries before it having succeeded). *)
Definition query_error ctx src (t : Trace) σ (e : error) : Prop :=
  (∃ m σ1,
     JettonMastersForWallets src ctx (jettonWallets (candidates t)) σ
       = ((m, Some e), σ1))
  ∨ (∃ m σ1 g σ2,
       JettonMastersForWallets src ctx (jettonWallets (candidates t)) σ
         = ((m, None), σ1)
       ∧ GetGemsContracts src ctx (getGemsContracts (candidates t)) σ1
         = ((g, Some e), σ2))
  ∨ (∃ m σ1 g σ2 b σ3,
       JettonMastersForWallets src ctx (jettonWallets (candidates t)) σ
         = ((m, None), σ1)
       ∧ GetGemsContracts src ctx (getGemsContracts (candidates t)) σ1
         = ((g, None), σ2)
       ∧ NftSaleContracts src ctx (basicNftSale (candidates t)) σ2
         = ((b, Some e), σ3)).

(** Two calls in succession: the second runs on the tree, the source state
    and the log the first one left. *)
Definition twice ctx (infoSource : option (InformationSource Ctx Σ))
    (t : Trace) (w : Σ * list Query)
    : (Trace * option error) * (Σ * list Query) :=
  let once := CollectAdditionalInfo ctx infoSource t w in
  CollectAdditionalInfo ctx infoSource (tree_after once) once.2.

(** The source answers a query the same way whatever state it is in. *)
Definition same_answers (infoSource : option (InformationSource Ctx Σ))
    : Prop :=
  match infoSource with
  | None => True
  | Some src =>
      ∀ ctx keys σ σ',
        (JettonMastersForWallets src ctx keys σ).1
          = (JettonMastersForWallets src ctx keys σ').1
        ∧ (GetGemsContracts src ctx keys σ).1
          = (GetGemsContracts src ctx keys σ').1
        ∧ (NftSaleContracts src ctx keys σ).1
          = (NftSaleContracts src ctx keys σ').1
  end.
End Outcomes.

(** What one walk leaves behind, read off the pre-order lists. *)
Definition visit_agrees {St} (fn : visitor St)
    (before after : list Trace) (s s' : St) : Prop :=
  s' = (walk fn before s).2
  ∧ AdditionalInfo <$> after = (walk fn before s).1
  ∧ Tx <$> after = Tx <$> before
  ∧ AccountInterfaces <$> after = AccountInterfaces <$> before.

(** ** Sample inputs *)

Module Samples.
Definition root_account := tongo.mkAccountID 0 1.
Definition sale_account := tongo.mkAccountID 0 2.
Definition plain_account := tongo.mkAccountID (-1) 3.
Definition master_account := tongo.mkAccountID 0 100.

Definition transfer : Message :=
  mkMessage (Some sale_account)
            (Some (mkDecodedMessageBody abi.JettonTransferMsgOp)).
Definition plain_message : Message := mkMessage (Some plain_account) None.

(** A token-transfer destination that implements both sale interfaces and
    still has one unmatched outbound message. *)
Definition sale_node : Trace :=
  mkTrace (mkTransaction sale_account (Some transfer) [plain_message])
          [abi.NftSale; abi.NftSaleGetgems] [] None.

Definition plain_node : Trace :=
  mkTrace (mkTransaction plain_account (Some plain_message) [])
          [] [] None.

Definition root : Trace :=
  mkTrace (mkTransaction root_account None [])
          [] [sale_node; plain_node] None.

(** The same shape and outbound counts as [root], everything else
    different. *)
Definition other_root : Trace :=
  mkTrace (mkTransaction plain_account (Some transfer) [])
          [abi.NftSale]
          [ mkTrace (mkTransaction root_account None [transfer])
                    [] []
                    (Some (mkTraceAdditionalInfo None None));
            mkTrace (mkTransaction sale_account None [])
                    [abi.NftSaleGetgems] [] None ]
          (Some (mkTraceAdditionalInfo (Some master_account) None)).

Definition quiet : Trace :=
  mkTrace (mkTransaction root_account None []) [] [plain_node] None.

Definition getgems_sale := mkNftSaleContract 5 None.
Definition basic_sale := mkNftSaleContract 7 (Some root_account).

(** Sources over a call counter; the context carries nothing. *)
Definition source : InformationSource () nat :=
  mkInformationSource
    (λ _ _ calls, (({[sale_account := master_account]}, None), S calls))
    (λ _ _ calls, (({[sale_account := getgems_sale]}, None), S calls))
    (λ _ _ calls, (({[sale_account := basic_sale]}, None), S calls)).

Definition marketplace_only_source : InformationSource () nat :=
  mkInformationSource
    (λ _ _ calls, (({[sale_account := master_account]}, None), S calls))
    (λ _ _ calls, (({[sale_account := getgems_sale]}, None), S calls))
    (λ _ _ calls, ((∅, None), S calls)).

(** The marketplace query fails, after the jetton query succeeded. *)
Definition marketplace_failing_source : InformationSource () nat :=
  mkInformationSource
    (λ _ _ calls, (({[sale_account := master_account]}, None), S calls))
    (λ _ _ calls, ((∅, Some "marketplace unavailable"%string), S calls))
    (λ _ _ calls, (({[sale_account := basic_sale]}, None), S calls)).

Definition failing_source : InformationSource () nat :=
  mkInformationSource
    (λ _ _ calls, ((∅, Some "source unavailable"%string), S calls))
    (λ _ _ calls, (({[sale_account := getgems_sale]}, None), S calls))
    (λ _ _ calls, (({[sale_account := basic_sale]}, None), S calls)).
End Samples.

(** * The API server (package [api]) *)

Module api.
Section Server.

(** Types of the collaborating packages ([zap], [oas], [net/http],
    [pusher/sources], [pusher/sse], tongo's [config]).  An interface value
    that may be nil is an [option]. *)
Context {Logger OasHandler OasMiddleware OasErrorHandler : Type}.
Context {ResponseWriter Request : Type}.
Context {TransactionSource BlockHeadersSource BlockSource : Type}.
Context {TraceSource MemPoolSource LiteServer : Type}.
Context {SseHandler SseHandlerFunc : Type}.

(** For authentication purposes we need to distinguish between regular and
    long-lived connections. *)
Definition LongLivedConnection : Z := 0.
Definition RegularConnection : Z := 1.

(** [http.Handler]: serving a request acts on the response writer. *)
Definition HttpHandler : Type := ResponseWriter → Request → ResponseWriter.

Definition AsyncHandler : Type :=
  ResponseWriter → Request → Z → bool → ResponseWriter * option error.
Definition AsyncMiddleware : Type := AsyncHandler → AsyncHandler.

Record ServerOptions := mkServerOptions {
  ogenMiddlewares : list OasMiddleware;
  asyncMiddlewares : list AsyncMiddleware;
  txSource : option TransactionSource;
  blockHeadersSource : option BlockHeadersSource;
  blockSource : option BlockSource;
  traceSource : option TraceSource;
  memPool : option MemPoolSource;
  liteServers : list LiteServer
}.

(** A [ServerOption] writes through the pointer it is given; here it
    answers with the options after the call. *)
Definition ServerOption : Type := ServerOptions → ServerOptions.

Definition WithOgenMiddleware (m : list OasMiddleware) : ServerOption :=
  λ options,
    mkServerOptions m (asyncMiddlewares options) (txSource options)
      (blockHeadersSource options) (blockSource options)
      (traceSource options) (memPool options) (liteServers options).

Definition WithAsyncMiddleware (m : list AsyncMiddleware) : ServerOption :=
  λ options,
    mkServerOptions (ogenMiddlewares options) m (txSource options)
      (blockHeadersSource options) (blockSource options)
      (traceSource options) (memPool options) (liteServers options).

Definition WithBlockHeadersSource (src : option BlockHeadersSource)
    : ServerOption :=
  λ options,
    mkServerOptions (ogenMiddlewares options) (asyncMiddlewares options)
      (txSource options) src (blockSource options)
      (traceSource options) (memPool options) (liteServers options).

Definition WithBlockSource (src : option BlockSource) : ServerOption :=
  λ options,
    mkServerOptions (ogenMiddlewares options) (asyncMiddlewares options)
      (txSource options) (blockHeadersSource options) src
      (traceSource options) (memPool options) (liteServers options).

Definition WithTransactionSource (src : option TransactionSource)
    : ServerOption :=
  λ options,
    mkServerOptions (ogenMiddlewares options) (asyncMiddlewares options)
      src (blockHeadersSource options) (blockSource options)
      (traceSource options) (memPool options) (liteServers options).

Definition WithTraceSource (src : option TraceSource) : ServerOption :=
  λ options,
    mkServerOptions (ogenMiddlewares options) (asyncMiddlewares options)
      (txSource options) (blockHeadersSource options) (blockSource options)
      src (memPool options) (liteServers options).

Definition WithMemPool (src : option MemPoolSource) : ServerOption :=
  λ options,
    mkServerOptions (ogenMiddlewares options) (asyncMiddlewares options)
      (txSource options) (blockHeadersSource options) (blockSource options)
      (traceSource options) src (liteServers options).

(** The zero value [&ServerOptions{}]. *)
Definition noOptions : ServerOptions :=
  mkServerOptions [] [] None None None None None [].

(** The error of the handler is dropped. *)
Definition wrapAsync (connectionType : Z) (allowTokenInQuery : bool)
    (handler : AsyncHandler) : HttpHandler :=
  λ writer request,
    (handler writer request connectionType allowTokenInQuery).1.

Definition chainMiddlewares (handler : AsyncHandler)
    (middleware : list AsyncMiddleware) : AsyncHandler :=
  foldl (λ handler md, md handler) handler middleware.

(** Functions of this package declared in other files, and of the
    collaborating packages. *)
Record Externals := mkExternals {
  ogenLoggingMiddleware : Logger → OasMiddleware;
  ogenMetricsMiddleware : OasMiddleware;
  ogenErrorsHandler : OasErrorHandler;
  oas_NewServer :
    OasHandler → list OasMiddleware → OasErrorHandler →
    HttpHandler * option error;
  asyncLoggingMiddleware : Logger → AsyncMiddleware;
  asyncMetricsMiddleware : AsyncMiddleware;
  sse_NewHandler :
    option BlockSource → option BlockHeadersSource →
    option TransactionSource → option TraceSource →
    option MemPoolSource → SseHandler;
  SubscribeToBlocks : SseHandler → SseHandlerFunc;
  SubscribeToBlockHeaders : SseHandler → SseHandlerFunc;
  SubscribeToTransactions : SseHandler → SseHandlerFunc;
  SubscribeToTraces : SseHandler → SseHandlerFunc;
  SubscribeToMessages : SseHandler → SseHandlerFunc;
  sse_Stream : Logger → SseHandlerFunc → AsyncHandler;
  websocket_Handler :
    Logger → option TransactionSource → option TraceSource →
    option MemPoolSource → option BlockHeadersSource → AsyncHandler
}.

(** Server opens a port and exposes REST-ish API.  [mux] is the list of
    the registrations made with [ServeMux.Handle], oldest first;
    [httpServer] serves that same mux and has no field of its own.  The
    trailing underscore keeps [asyncMiddlewares_] apart from the field of
    [ServerOptions]. *)
Record Server := mkServer {
  logger : Logger;
  mux : list (string * HttpHandler);
  asyncMiddlewares_ : list AsyncMiddleware
}.

(** [mux.Handle(pattern, handler)]. *)
Definition Handle (mux : list (string * HttpHandler))
    (pattern : string) (handler : HttpHandler)
    : list (string * HttpHandler) :=
  mux ++ [(pattern, handler)].

Definition NewServer (ext : Externals) (log : Logger) (handler : OasHandler)
    (opts : list ServerOption) : option Server * option error :=
  let options := foldl (λ options o, o options) noOptions opts in
  let ogenMiddlewares' :=
    [ogenLoggingMiddleware ext log; ogenMetricsMiddleware ext] in
  let ogenMiddlewares' := ogenMiddlewares' ++ ogenMiddlewares options in
  let '(ogenServer, err) :=
    oas_NewServer ext handler ogenMiddlewares' (ogenErrorsHandler ext) in
  match err with
  | Some _ => (None, err)
  | None =>
      let mux := [] in
      let asyncMiddlewares' :=
        [asyncLoggingMiddleware ext log; asyncMetricsMiddleware ext] in
      let asyncMiddlewares' :=
        asyncMiddlewares' ++ asyncMiddlewares options in
      let sseHandler :=
        sse_NewHandler ext (blockSource options)
          (blockHeadersSource options) (txSource options)
          (traceSource options) (memPool options) in
      let mux :=
        if blockSource options is Some _ then
          Handle mux "/v2/sse/blockchain/full"
            (wrapAsync LongLivedConnection true
               (chainMiddlewares
                  (sse_Stream ext log (SubscribeToBlocks ext sseHandler))
                  asyncMiddlewares'))
        else mux in
      let mux :=
        if blockHeadersSource options is Some _ then
          Handle mux "/v2/sse/blocks"
            (wrapAsync LongLivedConnection true
               (chainMiddlewares
                  (sse_Stream ext log
                     (SubscribeToBlockHeaders ext sseHandler))
                  asyncMiddlewares'))
        else mux in
      let mux :=
        if txSource options is Some _ then
          Handle mux "/v2/sse/accounts/transactions"
            (wrapAsync LongLivedConnection true
               (chainMiddlewares
                  (sse_Stream ext log
                     (SubscribeToTransactions ext sseHandler))
                  asyncMiddlewares'))
        else mux in
      let mux :=
        if traceSource options is Some _ then
          Handle mux "/v2/sse/accounts/traces"
            (wrapAsync LongLivedConnection true
               (chainMiddlewares
                  (sse_Stream ext log (SubscribeToTraces ext sseHandler))
                  asyncMiddlewares'))
        else mux in
      let mux :=
        if memPool options is Some _ then
          Handle mux "/v2/sse/mempool"
            (wrapAsync LongLivedConnection true
               (chainMiddlewares
                  (sse_Stream ext log (SubscribeToMessages ext sseHandler))
                  asyncMiddlewares'))
        else mux in
      let websocketHandler :=
        websocket_Handler ext log (txSource options) (traceSource options)
          (memPool options) (blockHeadersSource options) in
      let mux :=
        Handle mux "/v2/websocket"
          (wrapAsync LongLivedConnection true
             (chainMiddlewares websocketHandler asyncMiddlewares')) in
      let mux := Handle mux "/" ogenServer in
      (Some (mkServer log mux asyncMiddlewares'), None)
  end.

(** The options [NewServer] works with: the zero value after each of
    [opts] was applied in turn. *)
Definition applied (opts : list ServerOption) : ServerOptions :=
  foldl (λ options o, o options) noOptions opts.

(** The patterns an SSE route is registered under, one per source that is
    set, in the order of registration. *)
Definition sse_patterns (options : ServerOptions) : list string :=
  (if blockSource options is Some _
   then ["/v2/sse/blockchain/full"%string] else [])
  ++ (if blockHeadersSource options is Some _
      then ["/v2/sse/blocks"%string] else [])
  ++ (if txSource options is Some _
      then ["/v2/sse/accounts/transactions"%string] else [])
  ++ (if traceSource options is Some _
      then ["/v2/sse/accounts/traces"%string] else [])
  ++ (if memPool options is Some _
      then ["/v2/sse/mempool"%string] else []).

End Server.
End api.

(** * Configuration (package [config]) *)

Module config.

(** [strings.Split(s, sep)] for a separator of one byte: the substrings
    between the separators, one more than there are separators. *)
Fixpoint Split (s : string) (sep : Ascii.ascii) : list string :=
  match s with
  | EmptyString => [EmptyString]
  | String c rest =>
      if Ascii.eqb c sep then EmptyString :: Split rest sep
      else
        match Split rest sep with
        | field :: fields => String c field :: fields
        | [] => [String c EmptyString]
        end
  end.

Section Load.

(** tongo's [config.LiteServer]. *)
Context {LiteServer : Type}.

Record ConfigAPI := mkConfigAPI {
  Port : Z;
  UnixSockets : list string
}.

Record ConfigApp := mkConfigApp {
  LogLevel : string;
  MetricsPort : Z;
  Accounts : list tongo.AccountID;
  LiteServers : list LiteServer;
  SendingLiteservers : list LiteServer;
  IsTestnet : bool;
  AccountsFile : string
}.

Record ConfigTonConnect := mkConfigTonConnect { Secret : string }.

Record Config := mkConfig {
  API : ConfigAPI;
  App : ConfigApp;
  TonConnect : ConfigTonConnect
}.

(** What reading a file with a [bufio.Scanner] from its start gives: the
    lines, and the error [scanner.Err()] reports at the end. *)
Record Scan := mkScan {
  scan_lines : list string;
  scan_err : option error
}.

(** The library calls: [tongo.ParseAddress] (of the address only the ID
    is used), tongo's [config.ParseLiteServersEnvVar], [os.Open] followed
    by the scans of the file, and [env.ParseWithFuncs], which is given the
    two parser functions and answers with the configuration it filled in
    and its error. *)
Record Externals := mkExternals {
  ParseAddress : string → error + tongo.AccountID;
  ParseLiteServersEnvVar : string → list LiteServer * option error;
  os_Open : string → error + Scan;
  env_ParseWithFuncs :
    (string → error + list LiteServer) →
    (string → error + list tongo.AccountID) →
    Config * option error
}.


(** The loop of the parser [Load] registers for [accountsList]: the first
    address that does not parse aborts it. *)
Fixpoint parseAccountsEnv_range (ext : Externals) (fields : list string)
    (fallbackAccs : list tongo.AccountID) : error + list tongo.AccountID :=
  match fields with
  | [] => inr fallbackAccs
  | s :: rest =>
      match ParseAddress ext s with
      | inl err => inl err
      | inr account =>
          parseAccountsEnv_range ext rest (fallbackAccs ++ [account])
      end
  end.

Definition parseAccountsEnv (ext : Externals) (v : string)
    : error + list tongo.AccountID :=
  parseAccountsEnv_range ext (Split v ","%char) [].

(** The scanning loop of [parseAccountsFromFile]: a line that does not
    parse is skipped. *)
Fixpoint scanAccounts (ext : Externals) (lines : list string)
    (accs : list tongo.AccountID) : list tongo.AccountID :=
  match lines with
  | [] => accs
  | line :: rest =>
      let parts := Split line ","%char in
      let line := match parts with part :: _ => part | [] => line end in
      match ParseAddress ext line with
      | inl _ => scanAccounts ext rest accs
      | inr account => scanAccounts ext rest (accs ++ [account])
      end
  end.

(** The log lines and the progress output (the only use of the first pass
    over the file, which counts its lines) are left out. *)
Definition parseAccountsFromFile (ext : Externals) (v : string)
    : error + list tongo.AccountID :=
  let v := if bool_decide (v = ""%string) then "accounts.txt"%string else v in
  match os_Open ext v with
  | inl err =>
      inl ("error opening accounts file '" +:+ v +:+ "': " +:+ err)%string
  | inr file =>
      let accs := scanAccounts ext (scan_lines file) [] in
      match scan_err file with
      | Some err =>
          inl ("error reading accounts file '" +:+ v +:+ "': "
               +:+ err)%string
      | None => inr accs
      end
  end.



(** The number of commas of a string. *)
Fixpoint commas (s : string) : nat :=
  match s with
  | EmptyString => 0
  | String c rest => (if Ascii.eqb c ","%char then 1 else 0) + commas rest
  end%nat.

(** The name [parseAccountsFromFile] opens. *)
Definition accounts_file_name (v : string) : string :=
  if bool_decide (v = ""%string) then "accounts.txt"%string else v.

(** The address parses. *)
Definition parses (ext : Externals) (s : string) : Prop :=
  ∃ account, ParseAddress ext s = inr account.

(** The accounts among parse results, in order. *)
Definition parsed (ext : Externals) (fields : list string)
    : list tongo.AccountID :=
  omap (λ s, match ParseAddress ext s with
             | inr account => Some account
             | inl _ => None
             end) fields.

End Load.
End config.

(** ** Sample collaborators *)

Module api_samples.
(** Every collaborating type is [unit], but requests, which are numbers,
    and response writers, which list what was written. *)
Definition tag (name : string)
    : api.AsyncHandler (ResponseWriter:=list string) (Request:=nat) :=
  λ writer request connectionType allowTokenInQuery,
    (writer ++ [name], None).

Definition mark (name : string)
    : api.AsyncMiddleware (ResponseWriter:=list string) (Request:=nat) :=
  λ next writer request connectionType allowTokenInQuery,
    next (writer ++ [name]) request connectionType allowTokenInQuery.

Definition externals
    : api.Externals (Logger:=()) (OasHandler:=()) (OasMiddleware:=())
        (OasErrorHandler:=()) (ResponseWriter:=list string) (Request:=nat)
        (TransactionSource:=()) (BlockHeadersSource:=()) (BlockSource:=())
        (TraceSource:=()) (MemPoolSource:=()) (SseHandler:=())
        (SseHandlerFunc:=string) :=
  api.mkExternals
    (λ _, ()) () ()
    (λ _ _ _, (λ writer _, writer ++ ["ogen"%string], None))
    (λ _, mark "log") (mark "metrics")
    (λ _ _ _ _ _, ())
    (λ _, "blocks"%string) (λ _, "headers"%string)
    (λ _, "transactions"%string) (λ _, "traces"%string)
    (λ _, "messages"%string)
    (λ _ name, tag name)
    (λ _ _ _ _ _, tag "websocket").

Definition options
    : list (api.ServerOption (OasMiddleware:=())
              (ResponseWriter:=list string) (Request:=nat)
              (TransactionSource:=()) (BlockHeadersSource:=())
              (BlockSource:=()) (TraceSource:=()) (MemPoolSource:=())
              (LiteServer:=())) :=
  [ api.WithTraceSource (Some ());
    api.WithAsyncMiddleware [mark "auth"];
    api.WithMemPool None ].
End api_samples.

Module config_samples.
Definition good_account := tongo.mkAccountID 0 7.

(** Only the address ["0:07"] parses; one file exists. *)
Definition externals : config.Externals (LiteServer:=()) :=
  config.mkExternals
    (λ s, if bool_decide (s = "0:07"%string)
          then inr good_account else inl "bad address"%string)
    (λ _, ([()], None))
    (λ name,
       if bool_decide (name = "accounts.txt"%string)
       then inr (config.mkScan
                   ["0:07,main wallet"; "junk"; "0:07"]%string None)
       else inl "no such file"%string)
    (λ _ parseAccounts,
       (config.mkConfig
          (config.mkConfigAPI 8081 [])
          (config.mkConfigApp "INFO" 9010
             (match parseAccounts "0:07"%string with
              | inr accs => accs
              | inl _ => []
              end)
             [] [] false ""%string)
          (config.mkConfigTonConnect ""%string),
        None)).
End config_samples.

(** * Supporting lemmas *)

(** ** Induction on traces *)

Lemma Trace_forall_ind (P : Trace → Prop) :
  (∀ tx ifaces children info,
     Forall P children → P (mkTrace tx ifaces children info)) →
  ∀ t, P t.
Proof.
  intros step. fix IH 1. intros [tx ifaces children info].
  apply step. induction children as [|c cs IHcs]; constructor; auto.
Qed.

Lemma preorder_unfold tx ifaces children info :
  preorder (mkTrace tx ifaces children info)
  = mkTrace tx ifaces children info :: (children ≫= preorder).
Proof. reflexivity. Qed.

Lemma paths_unfold tx ifaces children info :
  paths (mkTrace tx ifaces children info) = [] :: paths_range 0 children.
Proof. reflexivity. Qed.

(** ** Completeness tracker: arithmetic *)

Lemma int_wrap_small z : - 2 ^ 63 ≤ z < 2 ^ 63 → int_wrap z = z.
Proof. intros Hz. unfold int_wrap. rewrite Z.mod_small; lia. Qed.

Lemma sum_list_app' (l k : list nat) :
  sum_list (l ++ k) = (sum_list l + sum_list k)%nat.
Proof. induction l as [|x l IH]; simpl; lia. Qed.

Lemma unmatched_total_unfold tx ifaces children info :
  unmatched_total (mkTrace tx ifaces children info)
  = (length (OutMsgs tx) + sum_list (unmatched_total <$> children))%nat.
Proof.
  unfold unmatched_total at 1. rewrite preorder_unfold. csimpl.
  unfold unmatched at 1. csimpl. f_equal.
  induction children as [|c cs IH]; csimpl; [done|].
  rewrite fmap_app, sum_list_app', IH. done.
Qed.

Lemma countUncompleted_unfold tx ifaces children info :
  countUncompleted (mkTrace tx ifaces children info)
  = foldl (λ c st, int_add c (countUncompleted st))
          (Z.of_nat (length (OutMsgs tx))) children.
Proof. reflexivity. Qed.

Lemma countUncompleted_exact t :
  fits_int t → countUncompleted t = Z.of_nat (unmatched_total t).
Proof.
  unfold fits_int.
  induction t as [tx ifaces children info IH] using Trace_forall_ind;
    intros Hfit.
  rewrite countUncompleted_unfold.
  rewrite unmatched_total_unfold in Hfit |- *.
  revert Hfit. generalize (length (OutMsgs tx)) as a.
  induction children as [|c cs IHcs]; intros a Hfit; simpl in *.
  - f_equal. lia.
  - change (list_fmap _ _ unmatched_total cs)
      with (unmatched_total <$> cs) in *.
    inversion IH as [|? ? Hc Hcs]; subst.
    rewrite Hc by lia.
    unfold int_add. rewrite int_wrap_small by lia.
    replace (Z.of_nat a + Z.of_nat (unmatched_total c))
      with (Z.of_nat (a + unmatched_total c)) by lia.
    rewrite IHcs by (done || lia). f_equal. lia.
Qed.

Lemma unmatched_total_zero t :
  Forall (λ n, OutMsgs (Tx n) = []) (preorder t) → unmatched_total t = 0%nat.
Proof.
  unfold unmatched_total. induction (preorder t) as [|n l IH]; [done|].
  intros H. inversion H as [|? ? Hn Hl]; subst.
  rewrite fmap_cons. cbn [sum_list].
  unfold unmatched at 1. rewrite Hn, (IH Hl). done.
Qed.

Lemma countUncompleted_same_shape t1 :
  ∀ t2, same_outbound_shape t1 t2 → countUncompleted t1 = countUncompleted t2.
Proof.
  induction t1 as [tx1 ifaces1 cs1 info1 IH] using Trace_forall_ind;
    intros t2 Hsame.
  inversion Hsame as [? ? ? ? tx2 ifaces2 cs2 info2 Hlen Hcs]; subst.
  rewrite !countUncompleted_unfold, Hlen.
  generalize (Z.of_nat (length (OutMsgs tx2))) as a.
  induction Hcs as [|c1 c2 r1 r2 Hc Hr IHr]; intros a; simpl; [done|].
  inversion IH as [|? ? IHc IHrest]; subst.
  rewrite (IHc _ Hc). by apply IHr.
Qed.

(** ** The traversal visits the nodes in pre-order *)

Lemma visit_unfold {St} tx ifaces children info (fn : visitor St) s :
  visit (mkTrace tx ifaces children info) fn s
  = let '(i, s1) := fn (mkTrace tx ifaces children info) s in
    let '(cs, s2) := visit_range children fn s1 in
    (mkTrace tx ifaces cs i, s2).
Proof.
  simpl. destruct (fn _ s) as [i s1].
  match goal with
  | |- (let '(_, _) := ?range children s1 in _) = _ =>
      assert (Hrange : ∀ cs s, range cs s = visit_range cs fn s)
  end.
  { induction cs as [|c cs IH]; intros s'; simpl; [done|].
    destruct (visit c fn s') as [c' s'']. by rewrite IH. }
  by rewrite Hrange.
Qed.

Lemma walk_app {St} (fn : visitor St) l1 l2 s :
  walk fn (l1 ++ l2) s
  = let '(i1, s1) := walk fn l1 s in
    let '(i2, s2) := walk fn l2 s1 in
    (i1 ++ i2, s2).
Proof.
  revert s. induction l1 as [|n l1 IH]; intros s; simpl.
  - by destruct (walk fn l2 s).
  - destruct (fn n s) as [i s1]. rewrite IH.
    destruct (walk fn l1 s1) as [i1 s2]. by destruct (walk fn l2 s2).
Qed.

Lemma visit_agrees_app {St} (fn : visitor St) b1 a1 b2 a2 s s1 s2 :
  visit_agrees fn b1 a1 s s1 → visit_agrees fn b2 a2 s1 s2 →
  visit_agrees fn (b1 ++ b2) (a1 ++ a2) s s2.
Proof.
  unfold visit_agrees. intros (Hs1 & Hi1 & Ht1 & Ha1) (Hs2 & Hi2 & Ht2 & Ha2).
  rewrite walk_app, !fmap_app.
  destruct (walk fn b1 s) as [i1 s1']. simpl in *. subst s1'.
  destruct (walk fn b2 s1) as [i2 s2']. simpl in *. subst s2'.
  by rewrite Hi1, Hi2, Ht1, Ht2, Ha1, Ha2.
Qed.

Lemma visit_range_agrees {St} (fn : visitor St) cs :
  Forall (λ t, ∀ s, visit_agrees fn (preorder t) (preorder (visit t fn s).1)
                                 s (visit t fn s).2) cs →
  ∀ s, visit_agrees fn (cs ≫= preorder)
                    (((visit_range cs fn s).1 ≫= preorder))
                    s (visit_range cs fn s).2.
Proof.
  induction 1 as [|c cs Hc _ IH]; intros s; simpl.
  - by repeat split.
  - specialize (Hc s). destruct (visit c fn s) as [c' s1].
    specialize (IH s1). destruct (visit_range cs fn s1) as [cs' s2].
    simpl in *. by eapply visit_agrees_app.
Qed.

Lemma visit_preorder_agrees {St} (fn : visitor St) t :
  ∀ s, visit_agrees fn (preorder t) (preorder (visit t fn s).1)
                    s (visit t fn s).2.
Proof.
  induction t as [tx ifaces children info IH] using Trace_forall_ind.
  intros s. rewrite visit_unfold, preorder_unfold.
  pose proof (visit_range_agrees fn children IH) as Hr.
  destruct (fn (mkTrace tx ifaces children info) s) as [i s1] eqn:Hfn.
  specialize (Hr s1). destruct (visit_range children fn s1) as [cs s2].
  unfold visit_agrees in *. cbn [fst snd walk] in *.
  rewrite preorder_unfold, Hfn, !fmap_cons.
  destruct Hr as (Hs & Hi & Ht & Ha).
  destruct (walk fn (children ≫= preorder) s1) as [infos s2'].
  cbn [fst snd Tx AccountInterfaces AdditionalInfo] in *.
  subst. by rewrite Ht, Ha.
Qed.

Lemma visit_range_paths {St} (fn : visitor St) cs :
  Forall (λ t, ∀ s, paths (visit t fn s).1 = paths t) cs →
  ∀ s i, paths_range i (visit_range cs fn s).1 = paths_range i cs.
Proof.
  induction 1 as [|c cs Hc _ IH]; intros s i; simpl; [done|].
  specialize (Hc s). destruct (visit c fn s) as [c' s1].
  specialize (IH s1 (S i)). destruct (visit_range cs fn s1) as [cs' s2].
  simpl in *. by rewrite Hc, IH.
Qed.

Lemma visit_paths {St} (fn : visitor St) t :
  ∀ s, paths (visit t fn s).1 = paths t.
Proof.
  induction t as [tx ifaces children info IH] using Trace_forall_ind.
  intros s. rewrite visit_unfold.
  destruct (fn (mkTrace tx ifaces children info) s) as [i s1].
  pose proof (visit_range_paths fn children IH s1 0%nat) as Hr.
  destruct (visit_range children fn s1) as [cs s2].
  cbn [fst] in *. by rewrite !paths_unfold, Hr.
Qed.

(** ** Paths enumerate the nodes, each once, in pre-order *)

Lemma elem_of_paths_range p k cs :
  p ∈ paths_range k cs
  ↔ ∃ j c q, p = (k + j)%nat :: q ∧ cs !! j = Some c ∧ q ∈ paths c.
Proof.
  revert k. induction cs as [|c cs IH]; intros k; simpl.
  - split; [by intros ?%elem_of_nil|]. by intros (j & c & q & _ & ? & _).
  - rewrite elem_of_app, list_elem_of_fmap, IH. split.
    + intros [(q & -> & Hq)|(j & c' & q & -> & Hj & Hq)].
      * exists 0%nat, c, q. by rewrite Nat.add_0_r.
      * exists (S j), c', q. split; [f_equal; lia|done].
    + intros (j & c' & q & -> & Hj & Hq). destruct j as [|j]; simpl in Hj.
      * left. exists q. rewrite Nat.add_0_r. by simplify_eq.
      * right. exists j, c', q. split; [f_equal; lia|done].
Qed.

Lemma elem_of_paths p tx ifaces children info :
  p ∈ paths (mkTrace tx ifaces children info)
  ↔ p = [] ∨ ∃ j c q, p = j :: q ∧ children !! j = Some c ∧ q ∈ paths c.
Proof.
  rewrite paths_unfold, elem_of_cons, elem_of_paths_range. done.
Qed.

Lemma paths_valid t : ∀ p, p ∈ paths t ↔ is_Some (node_at p t).
Proof.
  induction t as [tx ifaces children info IH] using Trace_forall_ind.
  intros p. rewrite elem_of_paths. rewrite Forall_lookup in IH. split.
  - intros [->|(j & c & q & -> & Hj & Hq)]; [by eexists|].
    simpl. rewrite Hj. simpl. by apply (IH j c Hj).
  - destruct p as [|j q]; [by left|]. simpl. intros Hsome. right.
    destruct (children !! j) as [c|] eqn:Hj; simpl in Hsome.
    + exists j, c, q. repeat split; [done|]. by apply (IH j c Hj).
    + by destruct Hsome.
Qed.

Lemma paths_range_NoDup cs :
  Forall (λ t, NoDup (paths t)) cs → ∀ k, NoDup (paths_range k cs).
Proof.
  induction 1 as [|c cs Hc _ IH]; intros k; simpl; [constructor|].
  apply NoDup_app. split_and!.
  - apply NoDup_fmap_2; [|done]. by intros q1 q2 [=].
  - intros p (q & -> & _)%list_elem_of_fmap
             (j & c' & q' & Heq & _)%elem_of_paths_range.
    simplify_eq. lia.
  - apply IH.
Qed.

Lemma paths_NoDup t : NoDup (paths t).
Proof.
  induction t as [tx ifaces children info IH] using Trace_forall_ind.
  rewrite paths_unfold. apply NoDup_cons. split.
  - by intros (j & c & q & ? & _)%elem_of_paths_range.
  - by apply paths_range_NoDup.
Qed.

Lemma node_at_paths_range tx ifaces info cs :
  Forall (λ t, (λ p, node_at p t) <$> paths t = Some <$> preorder t) cs →
  ∀ pre,
    (λ p, node_at p (mkTrace tx ifaces (pre ++ cs) info))
      <$> paths_range (length pre) cs
    = Some <$> (cs ≫= preorder).
Proof.
  induction 1 as [|c cs Hc _ IH]; intros pre; [done|].
  cbn [paths_range]. rewrite bind_cons, !fmap_app. f_equal.
  - rewrite <- Hc, <- list_fmap_compose. apply list_fmap_ext.
    intros _ q _. simpl. by rewrite list_lookup_middle.
  - specialize (IH (pre ++ [c])).
    rewrite <- (assoc_L (++)), length_app in IH. simpl in IH.
    by rewrite Nat.add_1_r in IH.
Qed.

Lemma node_at_paths t :
  (λ p, node_at p t) <$> paths t = Some <$> preorder t.
Proof.
  induction t as [tx ifaces children info IH] using Trace_forall_ind.
  rewrite paths_unfold, preorder_unfold, !fmap_cons. f_equal.
  apply (node_at_paths_range tx ifaces info children IH []).
Qed.

(** ** The classification tests and the two closures *)

Lemma hasInterface_spec interfacesList name :
  hasInterface interfacesList name = true ↔ name ∈ interfacesList.
Proof.
  induction interfacesList as [|iface rest IH]; simpl.
  - split; [done|by intros ?%elem_of_nil].
  - rewrite elem_of_cons. destruct (String.eqb_spec iface name) as [->|Hne].
    + split; auto.
    + rewrite IH. split; [auto|]. by intros [->|?].
Qed.

Lemma hasInterface_decide name n :
  hasInterface (AccountInterfaces n) name
  = bool_decide (has_capability name n).
Proof.
  unfold has_capability. case_bool_decide as Hin.
  - by apply hasInterface_spec.
  - apply not_true_is_false. by rewrite hasInterface_spec.
Qed.

Lemma isDestinationJettonWallet_candidate n :
  (if isDestinationJettonWallet (InMsg (Tx n))
   then inMsgDestination (InMsg (Tx n)) else None)
  = jetton_candidate n.
Proof.
  unfold isDestinationJettonWallet, inMsgDestination, jetton_candidate.
  destruct (InMsg (Tx n)) as [m|]; simpl; [|done].
  destruct (DecodedBody m) as [body|]; simpl; [|done].
  destruct (String.eqb_spec (Operation body) abi.JettonTransferMsgOp);
    case_decide; try done; simpl.
  case_bool_decide as Hd; [done|].
  destruct (Destination m); [|done]. by destruct Hd.
Qed.

Lemma isDestinationJettonWallet_deref inMsg :
  isDestinationJettonWallet inMsg = true → is_Some (inMsgDestination inMsg).
Proof.
  unfold isDestinationJettonWallet, inMsgDestination.
  destruct inMsg as [m|]; simpl; [|done].
  destruct (DecodedBody m); [|done].
  intros [_ Hd%bool_decide_eq_true]%andb_true_iff. done.
Qed.

Lemma collect_spec n c :
  collect n c
  = (AdditionalInfo n,
     mkCandidates
       (jettonWallets c ++ option_list (jetton_candidate n))
       (getGemsContracts c
          ++ if decide (has_capability abi.NftSaleGetgems n)
             then [Account (Tx n)] else [])
       (basicNftSale c
          ++ if decide (has_capability abi.NftSale n)
             then [Account (Tx n)] else [])).
Proof.
  unfold collect. rewrite !hasInterface_decide.
  rewrite <- (isDestinationJettonWallet_candidate n).
  destruct c as [jw gg bs]. f_equal.
  destruct (isDestinationJettonWallet (InMsg (Tx n))) eqn:Hj;
    [destruct (isDestinationJettonWallet_deref _ Hj) as [d ->]|];
    repeat (case_bool_decide; case_decide; try done);
    simpl; by rewrite ?app_nil_r.
Qed.

Lemma walk_collect nodes : ∀ c,
  (walk collect nodes c).2
  = mkCandidates
      (jettonWallets c ++ omap jetton_candidate nodes)
      (getGemsContracts c
         ++ ((λ n, Account (Tx n))
               <$> filter (has_capability abi.NftSaleGetgems) nodes))
      (basicNftSale c
         ++ ((λ n, Account (Tx n))
               <$> filter (has_capability abi.NftSale) nodes)).
Proof.
  induction nodes as [|n nodes IH]; intros c.
  - destruct c. simpl. by rewrite !app_nil_r.
  - cbn [walk]. rewrite collect_spec.
    specialize (IH (collect n c).2). rewrite collect_spec in IH.
    destruct (walk collect nodes _) as [infos c']. simpl in IH |- *.
    rewrite IH. rewrite !filter_cons.
    destruct (jetton_candidate n); repeat case_decide; simpl;
      by rewrite <- ?(assoc_L (++)), ?app_nil_r.
Qed.

Lemma candidates_spec t :
  candidates t
  = mkCandidates (jetton_wallet_candidates t)
                 (sale_candidates abi.NftSaleGetgems t)
                 (sale_candidates abi.NftSale t).
Proof.
  unfold candidates.
  destruct (visit_preorder_agrees collect t (mkCandidates [] [] []))
    as [-> _].
  by rewrite walk_collect.
Qed.

Lemma assign_spec masters getGems basicNftSales n s :
  assign masters getGems basicNftSales n s
  = (Some (resolved_info masters getGems basicNftSales
                         (Tx n) (AccountInterfaces n)), s).
Proof.
  unfold assign, resolved_info. rewrite !hasInterface_decide.
  change (jetton_candidate (mkTrace (Tx n) (AccountInterfaces n) [] None))
    with (jetton_candidate n).
  rewrite <- (isDestinationJettonWallet_candidate n).
  unfold has_capability. simpl.
  destruct (isDestinationJettonWallet (InMsg (Tx n))) eqn:Hj;
    [destruct (isDestinationJettonWallet_deref _ Hj) as [d ->]; simpl;
     destruct (masters !! d)|];
    repeat (case_bool_decide; case_decide; try done); simpl;
    destruct (getGems !! Account (Tx n));
    destruct (basicNftSales !! Account (Tx n)); done.
Qed.

Lemma assign_reads_header_only masters getGems basicNftSales :
  reads_header_only (assign masters getGems basicNftSales).
Proof. intros n n' s Htx Hif. by rewrite !assign_spec, Htx, Hif. Qed.

Lemma collect_state_reads_header_only : state_reads_header_only collect.
Proof.
  intros [tx ifaces cs i] [tx' ifaces' cs' i'] s Htx Hif.
  simpl in Htx, Hif. subst tx' ifaces'. rewrite !collect_spec. done.
Qed.

(** ** What a walk leaves on each node *)

Lemma visit_fields {St} (fn : visitor St) t s :
  Tx (visit t fn s).1 = Tx t
  ∧ AccountInterfaces (visit t fn s).1 = AccountInterfaces t
  ∧ AdditionalInfo (visit t fn s).1 = (fn t s).1.
Proof.
  destruct t as [tx ifaces children info]. rewrite visit_unfold.
  destruct (fn _ s) as [i s1]. by destruct (visit_range children fn s1).
Qed.

Lemma visit_range_lookup {St} (fn : visitor St) cs :
  ∀ s i c, cs !! i = Some c →
    ∃ s', (visit_range cs fn s).1 !! i = Some (visit c fn s').1.
Proof.
  induction cs as [|c0 cs IH]; intros s i c Hi; [done|]. simpl.
  destruct (visit c0 fn s) as [c0' s1] eqn:Hc0.
  destruct (visit_range cs fn s1) as [cs' s2] eqn:Hcs.
  destruct i as [|i]; simpl in *.
  - simplify_eq. exists s. by rewrite Hc0.
  - destruct (IH s1 i c Hi) as [s' Hs']. exists s'. by rewrite Hcs in Hs'.
Qed.

Lemma visit_node_at {St} (fn : visitor St) path :
  ∀ t s n, node_at path t = Some n →
    ∃ s', node_at path (visit t fn s).1 = Some (visit n fn s').1.
Proof.
  induction path as [|i path IH]; intros t s n Hn; simpl in *.
  - simplify_eq. by exists s.
  - destruct t as [tx ifaces children info]. simpl in Hn.
    destruct (children !! i) as [c|] eqn:Hi; [|done]. simpl in Hn.
    rewrite visit_unfold. destruct (fn _ s) as [info' s1].
    destruct (visit_range_lookup fn children s1 i c Hi) as [s2 Hs2].
    destruct (visit_range children fn s1) as [cs s3]. simpl in *.
    rewrite Hs2. simpl. by apply IH.
Qed.

(** ** A second walk over a walked tree *)

Lemma visit_range_twice {St1 St2} (f1 : visitor St1) (f2 : visitor St2) cs :
  Forall (λ t, ∀ s1 s2, visit (visit t f1 s1).1 f2 s2 = visit t f2 s2) cs →
  ∀ s1 s2, visit_range (visit_range cs f1 s1).1 f2 s2 = visit_range cs f2 s2.
Proof.
  induction 1 as [|c cs Hc _ IH]; intros s1 s2; simpl; [done|].
  specialize (Hc s1 s2). destruct (visit c f1 s1) as [c1 s1'].
  simpl in Hc. destruct (visit c f2 s2) as [c2 s2'].
  specialize (IH s1' s2'). destruct (visit_range cs f1 s1') as [cs1 s1''].
  simpl in *. by rewrite Hc, IH.
Qed.

Lemma visit_twice {St1 St2} (f1 : visitor St1) (f2 : visitor St2) :
  reads_header_only f2 →
  ∀ t s1 s2, visit (visit t f1 s1).1 f2 s2 = visit t f2 s2.
Proof.
  intros Hf2 t.
  induction t as [tx ifaces children info IH] using Trace_forall_ind.
  intros s1 s2. rewrite (visit_unfold _ _ children).
  destruct (f1 _ s1) as [i1 s1'].
  pose proof (visit_range_twice f1 f2 children IH s1') as Hr.
  destruct (visit_range children f1 s1') as [cs1 s1'']. cbn [fst] in *.
  rewrite !visit_unfold.
  rewrite (Hf2 (mkTrace tx ifaces cs1 i1) (mkTrace tx ifaces children info))
    by done.
  destruct (f2 _ s2) as [i2 s2']. by rewrite Hr.
Qed.

Lemma visit_range_twice_state {St1 St2}
    (f1 : visitor St1) (f2 : visitor St2) cs :
  Forall (λ t, ∀ s1 s2, (visit (visit t f1 s1).1 f2 s2).2
                        = (visit t f2 s2).2) cs →
  ∀ s1 s2, (visit_range (visit_range cs f1 s1).1 f2 s2).2
           = (visit_range cs f2 s2).2.
Proof.
  induction 1 as [|c cs Hc _ IH]; intros s1 s2; simpl; [done|].
  specialize (Hc s1 s2). destruct (visit c f1 s1) as [c1 s1'].
  specialize (IH s1'). destruct (visit_range cs f1 s1') as [cs1 s1''].
  cbn [fst snd] in *. simpl.
  destruct (visit c1 f2 s2) as [c2' s2''].
  destruct (visit c f2 s2) as [c2 s2'].
  cbn [snd] in Hc. subst s2''. specialize (IH s2').
  destruct (visit_range cs1 f2 s2') as [? ?].
  by destruct (visit_range cs f2 s2') as [? ?].
Qed.

Lemma visit_twice_state {St1 St2} (f1 : visitor St1) (f2 : visitor St2) :
  state_reads_header_only f2 →
  ∀ t s1 s2, (visit (visit t f1 s1).1 f2 s2).2 = (visit t f2 s2).2.
Proof.
  intros Hf2 t.
  induction t as [tx ifaces children info IH] using Trace_forall_ind.
  intros s1 s2. rewrite (visit_unfold _ _ children).
  destruct (f1 _ s1) as [i1 s1'].
  pose proof (visit_range_twice_state f1 f2 children IH s1') as Hr.
  destruct (visit_range children f1 s1') as [cs1 s1'']. cbn [fst] in *.
  rewrite !visit_unfold.
  pose proof (Hf2 (mkTrace tx ifaces cs1 i1)
                  (mkTrace tx ifaces children info) s2 eq_refl eq_refl) as Hs.
  destruct (f2 (mkTrace tx ifaces cs1 i1) s2) as [i2 s2'].
  destruct (f2 (mkTrace tx ifaces children info) s2) as [i2' s2''].
  simpl in Hs. subst s2''. specialize (Hr s2').
  destruct (visit_range cs1 f2 s2') as [? ?].
  by destruct (visit_range children f2 s2') as [? ?].
Qed.

Lemma candidates_visit {St} (fn : visitor St) t s :
  candidates (visit t fn s).1 = candidates t.
Proof.
  unfold candidates.
  apply visit_twice_state, collect_state_reads_header_only.
Qed.

(** ** The enrichment entry point, case by case *)

Section CollectFacts.
Context {Ctx Σ : Type}.
Implicit Types (ctx : Ctx) (src : InformationSource Ctx Σ) (σ : Σ).
Implicit Types (log : list Query).

Lemma expected_queries_candidates t :
  expected_queries t
  = [ QJettonMastersForWallets (jettonWallets (candidates t));
      QGetGemsContracts (getGemsContracts (candidates t));
      QNftSaleContracts (basicNftSale (candidates t)) ].
Proof. by rewrite candidates_spec. Qed.

Lemma CollectAdditionalInfo_unfold ctx src t σ log :
  CollectAdditionalInfo ctx (Some src) t (σ, log)
  = let c := candidates t in
    let '((masters, err1), σ1) :=
      JettonMastersForWallets src ctx (jettonWallets c) σ in
    let log1 := log ++ [QJettonMastersForWallets (jettonWallets c)] in
    match err1 with
    | Some _ => ((t, err1), (σ1, log1))
    | None =>
        let '((getGems, err2), σ2) :=
          GetGemsContracts src ctx (getGemsContracts c) σ1 in
        let log2 := log1 ++ [QGetGemsContracts (getGemsContracts c)] in
        match err2 with
        | Some _ => ((t, err2), (σ2, log2))
        | None =>
            let '((basicNftSales, err3), σ3) :=
              NftSaleContracts src ctx (basicNftSale c) σ2 in
            let log3 := log2 ++ [QNftSaleContracts (basicNftSale c)] in
            match err3 with
            | Some _ => ((t, err3), (σ3, log3))
            | None =>
                (((visit t (assign masters getGems basicNftSales) ()).1,
                  None), (σ3, log3))
            end
        end
    end.
Proof.
  unfold CollectAdditionalInfo, candidates.
  destruct (visit t collect _) as [t0 c]. cbn [snd].
  unfold mbind, M_bind, mret, M_ret, query.
  destruct (JettonMastersForWallets src ctx _ σ) as [[masters [e1|]] σ1];
    [done|].
  destruct (GetGemsContracts src ctx _ σ1) as [[getGems [e2|]] σ2];
    [done|].
  destruct (NftSaleContracts src ctx _ σ2) as [[basic [e3|]] σ3];
    [done|].
  by destruct (visit t (assign masters getGems basic) ()).
Qed.

Lemma CollectAdditionalInfo_nil ctx t (w : Σ * list Query) :
  CollectAdditionalInfo (Σ:=Σ) ctx None t w = ((t, None), w).
Proof. reflexivity. Qed.

Lemma CollectAdditionalInfo_success
    ctx src t σ log masters getGems basicNftSales σ3 :
  all_succeed ctx src t σ masters getGems basicNftSales σ3 →
  CollectAdditionalInfo ctx (Some src) t (σ, log)
  = (((visit t (assign masters getGems basicNftSales) ()).1, None),
     (σ3, log ++ expected_queries t)).
Proof.
  intros (σ1 & σ2 & H1 & H2 & H3).
  rewrite CollectAdditionalInfo_unfold, expected_queries_candidates.
  cbv zeta. rewrite H1, H2, H3. by rewrite <- !(assoc_L (++)).
Qed.

Lemma CollectAdditionalInfo_error ctx src t σ log e :
  query_error ctx src t σ e →
  ∃ σ' k, (1 ≤ k ≤ 3)%nat
    ∧ CollectAdditionalInfo ctx (Some src) t (σ, log)
      = ((t, Some e), (σ', log ++ take k (expected_queries t))).
Proof.
  rewrite CollectAdditionalInfo_unfold, expected_queries_candidates.
  cbv zeta.
  intros [(m & σ1 & H1)
         |[(m & σ1 & g & σ2 & H1 & H2)
          |(m & σ1 & g & σ2 & b & σ3 & H1 & H2 & H3)]].
  - rewrite H1. exists σ1, 1%nat. split; [lia|done].
  - rewrite H1, H2. exists σ2, 2%nat. split; [lia|].
    by rewrite <- !(assoc_L (++)).
  - rewrite H1, H2, H3. exists σ3, 3%nat. split; [lia|].
    by rewrite <- !(assoc_L (++)).
Qed.

Lemma query_outcomes ctx src t σ :
  (∃ e, query_error ctx src t σ e)
  ∨ (∃ masters getGems basicNftSales σ3,
       all_succeed ctx src t σ masters getGems basicNftSales σ3).
Proof.
  unfold query_error, all_succeed.
  destruct (JettonMastersForWallets src ctx
              (jettonWallets (candidates t)) σ)
    as [[m [e1|]] σ1] eqn:H1; [left; exists e1; eauto|].
  destruct (GetGemsContracts src ctx
              (getGemsContracts (candidates t)) σ1)
    as [[g [e2|]] σ2] eqn:H2; [left; exists e2; eauto 10|].
  destruct (NftSaleContracts src ctx
              (basicNftSale (candidates t)) σ2)
    as [[b [e3|]] σ3] eqn:H3; [left; exists e3; eauto 15|].
  right. eauto 10.
Qed.

Lemma annotated_node_at ctx src t σ log masters getGems basicNftSales σ3
    path n :
  all_succeed ctx src t σ masters getGems basicNftSales σ3 →
  node_at path t = Some n →
  ∃ n',
    node_at path
      (tree_after (CollectAdditionalInfo ctx (Some src) t (σ, log)))
      = Some n'
    ∧ Tx n' = Tx n
    ∧ AccountInterfaces n' = AccountInterfaces n
    ∧ AdditionalInfo n'
      = Some (resolved_info masters getGems basicNftSales
                            (Tx n) (AccountInterfaces n)).
Proof.
  intros Hok Hn. rewrite (CollectAdditionalInfo_success _ _ _ _ _ _ _ _ _ Hok).
  unfold tree_after. cbn [fst].
  destruct (visit_node_at (assign masters getGems basicNftSales)
              path t () n Hn) as [s' Hn'].
  exists (visit n (assign masters getGems basicNftSales) s').1.
  destruct (visit_fields (assign masters getGems basicNftSales) n s')
    as (Htx & Hif & Hinfo).
  by rewrite Hinfo, assign_spec.
Qed.
Lemma CollectAdditionalInfo_same_outcome ctx src t t' σ σ' log log' :
  same_answers (Some src) →
  candidates t' = candidates t →
  (error_of (CollectAdditionalInfo ctx (Some src) t (σ, log)) = None →
   ∀ m g b, visit t' (assign m g b) () = visit t (assign m g b) ()) →
  (is_Some (error_of (CollectAdditionalInfo ctx (Some src) t (σ, log))) →
   t' = t) →
  tree_after (CollectAdditionalInfo ctx (Some src) t' (σ', log'))
    = tree_after (CollectAdditionalInfo ctx (Some src) t (σ, log))
  ∧ error_of (CollectAdditionalInfo ctx (Some src) t' (σ', log'))
    = error_of (CollectAdditionalInfo ctx (Some src) t (σ, log)).
Proof.
  intros Hsame Hc. rewrite !CollectAdditionalInfo_unfold.
  cbv zeta. rewrite Hc.
  destruct (Hsame ctx (jettonWallets (candidates t)) σ σ')
    as (H1 & _ & _).
  destruct (JettonMastersForWallets src ctx _ σ) as [[m e1] σ1].
  destruct (JettonMastersForWallets src ctx _ σ') as [[m' e1'] σ1'].
  simpl in H1. injection H1 as <- <-.
  destruct e1 as [e1|];
    [intros _ Ht; by rewrite (Ht (mk_is_Some _ _ eq_refl))|].
  destruct (Hsame ctx (getGemsContracts (candidates t)) σ1 σ1')
    as (_ & H2 & _).
  destruct (GetGemsContracts src ctx _ σ1) as [[g e2] σ2].
  destruct (GetGemsContracts src ctx _ σ1') as [[g' e2'] σ2'].
  simpl in H2. injection H2 as <- <-.
  destruct e2 as [e2|];
    [intros _ Ht; by rewrite (Ht (mk_is_Some _ _ eq_refl))|].
  destruct (Hsame ctx (basicNftSale (candidates t)) σ2 σ2')
    as (_ & _ & H3).
  destruct (NftSaleContracts src ctx _ σ2) as [[b e3] σ3].
  destruct (NftSaleContracts src ctx _ σ2') as [[b' e3'] σ3'].
  simpl in H3. injection H3 as <- <-.
  destruct e3 as [e3|];
    [intros _ Ht; by rewrite (Ht (mk_is_Some _ _ eq_refl))|].
  intros Hv _. unfold tree_after, error_of. simpl.
  by rewrite (Hv eq_refl).
Qed.

Lemma CollectAdditionalInfo_twice ctx src t σ log :
  same_answers (Some src) →
  tree_after (twice ctx (Some src) t (σ, log))
    = tree_after (CollectAdditionalInfo ctx (Some src) t (σ, log))
  ∧ error_of (twice ctx (Some src) t (σ, log))
    = error_of (CollectAdditionalInfo ctx (Some src) t (σ, log)).
Proof.
  intros Hsame. unfold twice.
  destruct (CollectAdditionalInfo ctx (Some src) t (σ, log)).2
    as [σ' log'] eqn:Hworld.
  apply CollectAdditionalInfo_same_outcome; [done|..];
    destruct (query_outcomes ctx src t σ)
      as [[e Herr]|(m & g & b & σ3 & Hok)];
    try (destruct (CollectAdditionalInfo_error ctx src t σ log e Herr)
           as (σ'' & k & _ & ->));
    try rewrite (CollectAdditionalInfo_success _ _ _ _ log _ _ _ _ Hok);
    unfold tree_after, error_of; cbn [fst snd].
  - done.
  - apply candidates_visit.
  - intros [=].
  - intros _ m' g' b'. apply visit_twice, assign_reads_header_only.
  - done.
  - by intros [? [=]].
Qed.

End CollectFacts.

(** * Properties *)

Section Claims.
Context {Ctx Σ : Type}.
Implicit Types (ctx : Ctx) (src : InformationSource Ctx Σ) (σ : Σ).
Implicit Types (log : list Query) (t n : Trace).

(** C1: when one of the batched queries answers with an error,
    [CollectAdditionalInfo] returns that very error and the tree is the
    one that was passed in; a tree without annotations still has none,
    on any node. *)
Theorem CollectAdditionalInfo_error_leaves_tree ctx src t σ log e :
  query_error ctx src t σ e →
  error_of (CollectAdditionalInfo ctx (Some src) t (σ, log)) = Some e
  ∧ tree_after (CollectAdditionalInfo ctx (Some src) t (σ, log)) = t
  ∧ (unannotated t →
     unannotated
       (tree_after (CollectAdditionalInfo ctx (Some src) t (σ, log)))).
Proof.
  intros Herr.
  destruct (CollectAdditionalInfo_error ctx src t σ log e Herr)
    as (σ' & k & _ & ->).
  by repeat split.
Qed.

(** C4: with a nil information source [CollectAdditionalInfo] returns no
    error and leaves the tree, hence every node's [AdditionalInfo], as it
    was; no query is issued. *)
Theorem CollectAdditionalInfo_nil_source_noop ctx t σ log :
  error_of (CollectAdditionalInfo ctx None t (σ, log)) = None
  ∧ tree_after (CollectAdditionalInfo ctx None t (σ, log)) = t
  ∧ (∀ path,
       AdditionalInfo
         <$> node_at path
               (tree_after (CollectAdditionalInfo ctx None t (σ, log)))
       = AdditionalInfo <$> node_at path t)
  ∧ queries_of (CollectAdditionalInfo ctx None t (σ, log)) = log.
Proof. by rewrite CollectAdditionalInfo_nil. Qed.

(** C3: a node with both sale capabilities whose account is resolved by
    the marketplace-variant query and by the basic-sale query ends, after
    a successful enrichment, with the basic-sale resolution as its
    [NftSaleContract]. *)
Theorem basic_sale_overrides_marketplace
    ctx src t σ log masters getGems basicNftSales σ3 path n getgems sale :
  all_succeed ctx src t σ masters getGems basicNftSales σ3 →
  node_at path t = Some n →
  has_capability abi.NftSaleGetgems n →
  has_capability abi.NftSale n →
  getGems !! Account (Tx n) = Some getgems →
  basicNftSales !! Account (Tx n) = Some sale →
  error_of (CollectAdditionalInfo ctx (Some src) t (σ, log)) = None
  ∧ ∃ n' info,
      node_at path
        (tree_after (CollectAdditionalInfo ctx (Some src) t (σ, log)))
        = Some n'
      ∧ AdditionalInfo n' = Some info
      ∧ NftSaleContract_ info = Some sale.
Proof.
  intros Hok Hn Hgg Hbs Hg Hb. split.
  - by rewrite (CollectAdditionalInfo_success _ _ _ _ _ _ _ _ _ Hok).
  - destruct (annotated_node_at ctx src t σ log _ _ _ _ path n Hok Hn)
      as (n' & Hn' & _ & _ & Hinfo).
    eexists n', _. split_and!; [done..|].
    unfold resolved_info, has_capability in *. simpl.
    rewrite !decide_True by done. by rewrite Hg, Hb.
Qed.

(** C9: a node with both sale capabilities whose account is resolved by
    the marketplace-variant query but is missing from the basic-sale
    answer keeps the marketplace-variant resolution. *)
Theorem missing_basic_sale_keeps_marketplace
    ctx src t σ log masters getGems basicNftSales σ3 path n getgems :
  all_succeed ctx src t σ masters getGems basicNftSales σ3 →
  node_at path t = Some n →
  has_capability abi.NftSaleGetgems n →
  has_capability abi.NftSale n →
  getGems !! Account (Tx n) = Some getgems →
  basicNftSales !! Account (Tx n) = None →
  error_of (CollectAdditionalInfo ctx (Some src) t (σ, log)) = None
  ∧ ∃ n' info,
      node_at path
        (tree_after (CollectAdditionalInfo ctx (Some src) t (σ, log)))
        = Some n'
      ∧ AdditionalInfo n' = Some info
      ∧ NftSaleContract_ info = Some getgems.
Proof.
  intros Hok Hn Hgg Hbs Hg Hb. split.
  - by rewrite (CollectAdditionalInfo_success _ _ _ _ _ _ _ _ _ Hok).
  - destruct (annotated_node_at ctx src t σ log _ _ _ _ path n Hok Hn)
      as (n' & Hn' & _ & _ & Hinfo).
    eexists n', _. split_and!; [done..|].
    unfold resolved_info, has_capability in *. simpl.
    rewrite !decide_True by done. by rewrite Hg, Hb.
Qed.

(** C6: when the three queries succeed, every node gets a fresh non-nil
    [AdditionalInfo] computed from its transaction, its interfaces and
    the answers only (whatever it held before is replaced); a node with
    no qualifying classification gets both fields unset; a node whose
    inbound message is present, decoded and a token transfer to [D], with
    [D] mapped to [M] by the jetton answer, gets [JettonMaster] [M]. *)
Theorem enrichment_annotates_every_node
    ctx src t σ log masters getGems basicNftSales σ3 :
  all_succeed ctx src t σ masters getGems basicNftSales σ3 →
  error_of (CollectAdditionalInfo ctx (Some src) t (σ, log)) = None
  ∧ ∀ path n, node_at path t = Some n →
      ∃ n' info,
        node_at path
          (tree_after (CollectAdditionalInfo ctx (Some src) t (σ, log)))
          = Some n'
        ∧ Tx n' = Tx n
        ∧ AccountInterfaces n' = AccountInterfaces n
        ∧ AdditionalInfo n' = Some info
        ∧ info = resolved_info masters getGems basicNftSales
                               (Tx n) (AccountInterfaces n)
        ∧ (jetton_candidate n = None →
           ¬ has_capability abi.NftSaleGetgems n →
           ¬ has_capability abi.NftSale n →
           info = mkTraceAdditionalInfo None None)
        ∧ (∀ m body D M,
             InMsg (Tx n) = Some m →
             DecodedBody m = Some body →
             Operation body = abi.JettonTransferMsgOp →
             Destination m = Some D →
             masters !! D = Some M →
             JettonMaster info = Some M).
Proof.
  intros Hok. split.
  - by rewrite (CollectAdditionalInfo_success _ _ _ _ _ _ _ _ _ Hok).
  - intros path n Hn.
    destruct (annotated_node_at ctx src t σ log _ _ _ _ path n Hok Hn)
      as (n' & Hn' & Htx & Hif & Hinfo).
    eexists n', _. split_and!; [done..| |].
    + intros Hj Hgg Hbs. unfold resolved_info, has_capability in *.
      simpl. rewrite !decide_False by done.
      change (jetton_candidate
                (mkTrace (Tx n) (AccountInterfaces n) [] None))
        with (jetton_candidate n).
      by rewrite Hj.
    + intros m body D M Hm Hbody Hop HD HM.
      unfold resolved_info, jetton_candidate. simpl.
      rewrite Hm. simpl. rewrite Hbody. simpl.
      rewrite decide_True by done. by rewrite HD.
Qed.

(** C5 (amended): for a non-nil source the queries are issued in the
    fixed order jetton masters, marketplace sales, basic sales, and the
    call stops at the first that answers with an error.  When the jetton
    query errs it is the only query issued; when it succeeds and the
    marketplace query errs, these two are the only ones; otherwise all
    three are issued.  The error returned is the one of the last query
    issued (none when the third succeeds) and the source is left in the
    state that query left, later queries never reaching it.  So between
    one and three queries are issued whatever the size of the tree,
    exactly three when no error is returned; the keys of each are the
    qualifying addresses of one pre-order walk. *)
Theorem queries_issued_in_order ctx src t σ log :
  (∀ m e σ1,
     JettonMastersForWallets src ctx (jetton_wallet_candidates t) σ
       = ((m, Some e), σ1) →
     queries_of (CollectAdditionalInfo ctx (Some src) t (σ, log))
       = log ++ [QJettonMastersForWallets (jetton_wallet_candidates t)]
     ∧ error_of (CollectAdditionalInfo ctx (Some src) t (σ, log)) = Some e
     ∧ source_after (CollectAdditionalInfo ctx (Some src) t (σ, log)) = σ1)
  ∧ (∀ m σ1 g e σ2,
       JettonMastersForWallets src ctx (jetton_wallet_candidates t) σ
         = ((m, None), σ1) →
       GetGemsContracts src ctx (sale_candidates abi.NftSaleGetgems t) σ1
         = ((g, Some e), σ2) →
       queries_of (CollectAdditionalInfo ctx (Some src) t (σ, log))
         = log ++ [QJettonMastersForWallets (jetton_wallet_candidates t);
                   QGetGemsContracts (sale_candidates abi.NftSaleGetgems t)]
       ∧ error_of (CollectAdditionalInfo ctx (Some src) t (σ, log)) = Some e
       ∧ source_after (CollectAdditionalInfo ctx (Some src) t (σ, log))
         = σ2)
  ∧ (∀ m σ1 g σ2 b err σ3,
       JettonMastersForWallets src ctx (jetton_wallet_candidates t) σ
         = ((m, None), σ1) →
       GetGemsContracts src ctx (sale_candidates abi.NftSaleGetgems t) σ1
         = ((g, None), σ2) →
       NftSaleContracts src ctx (sale_candidates abi.NftSale t) σ2
         = ((b, err), σ3) →
       queries_of (CollectAdditionalInfo ctx (Some src) t (σ, log))
         = log ++ expected_queries t
       ∧ error_of (CollectAdditionalInfo ctx (Some src) t (σ, log)) = err
       ∧ source_after (CollectAdditionalInfo ctx (Some src) t (σ, log))
         = σ3)
  ∧ ∃ k, (1 ≤ k ≤ 3)%nat
      ∧ queries_of (CollectAdditionalInfo ctx (Some src) t (σ, log))
        = log ++ take k (expected_queries t)
      ∧ (error_of (CollectAdditionalInfo ctx (Some src) t (σ, log)) = None
         → k = 3%nat)
      ∧ (k < 3 →
         is_Some
           (error_of (CollectAdditionalInfo ctx (Some src) t (σ, log))))%nat.
Proof.
  split_and!.
  - intros m e σ1 H1. rewrite CollectAdditionalInfo_unfold.
    rewrite candidates_spec. cbv zeta. cbn [jettonWallets].
    by rewrite H1.
  - intros m σ1 g e σ2 H1 H2. rewrite CollectAdditionalInfo_unfold.
    rewrite candidates_spec. cbv zeta.
    cbn [jettonWallets getGemsContracts]. rewrite H1, H2.
    unfold queries_of, error_of, source_after. cbn [fst snd].
    by rewrite <- (assoc_L (++)).
  - intros m σ1 g σ2 b err σ3 H1 H2 H3.
    rewrite CollectAdditionalInfo_unfold.
    rewrite candidates_spec. cbv zeta.
    cbn [jettonWallets getGemsContracts basicNftSale].
    rewrite H1, H2, H3.
    unfold queries_of, error_of, source_after, expected_queries.
    destruct err as [e|]; cbn [fst snd];
      by rewrite <- !(assoc_L (++)).
  - destruct (query_outcomes ctx src t σ)
      as [[e Herr]|(masters & getGems & basic & σ3 & Hok)].
    + destruct (CollectAdditionalInfo_error ctx src t σ log e Herr)
        as (σ' & k & Hk & ->).
      exists k. split_and!; [lia|lia|done|by intros [=]|by eexists].
    + rewrite (CollectAdditionalInfo_success _ _ _ _ log _ _ _ _ Hok).
      exists 3%nat. split_and!; [lia|lia|done|done|lia].
Qed.

(** C7: with a source that answers a query the same way on every call,
    calling [CollectAdditionalInfo] twice in succession leaves the tree
    that one call leaves, so the same annotation on every node, and
    returns the same error; and the outcome of a call does not depend on
    the state the source is in. *)
Theorem CollectAdditionalInfo_idempotent ctx infoSource t σ log :
  same_answers infoSource →
  tree_after (twice ctx infoSource t (σ, log))
    = tree_after (CollectAdditionalInfo ctx infoSource t (σ, log))
  ∧ (∀ path,
       AdditionalInfo
         <$> node_at path (tree_after (twice ctx infoSource t (σ, log)))
       = AdditionalInfo
           <$> node_at path
                 (tree_after
                    (CollectAdditionalInfo ctx infoSource t (σ, log))))
  ∧ error_of (twice ctx infoSource t (σ, log))
    = error_of (CollectAdditionalInfo ctx infoSource t (σ, log))
  ∧ (∀ σ' log',
       tree_after (CollectAdditionalInfo ctx infoSource t (σ', log'))
         = tree_after (CollectAdditionalInfo ctx infoSource t (σ, log))
       ∧ error_of (CollectAdditionalInfo ctx infoSource t (σ', log'))
         = error_of (CollectAdditionalInfo ctx infoSource t (σ, log))).
Proof.
  destruct infoSource as [src|]; [|done]. intros Hsame.
  destruct (CollectAdditionalInfo_twice ctx src t σ log Hsame)
    as [Htree Herr].
  split_and!; [done|by rewrite Htree|done|].
  intros σ' log'.
  by apply CollectAdditionalInfo_same_outcome.
Qed.

End Claims.

(** C2: as long as the total fits Go's [int], the internal count is the
    exact sum, over every node of the tree, of the outbound messages left
    in the node's filtered list, and [InProgress] is true exactly when
    that sum is nonzero; when every node's list is empty, [InProgress] is
    false. *)
Theorem InProgress_iff_unmatched t :
  (fits_int t →
   countUncompleted t = Z.of_nat (unmatched_total t)
   ∧ (InProgress t = true ↔ unmatched_total t ≠ 0%nat))
  ∧ (Forall (λ n, OutMsgs (Tx n) = []) (preorder t) → InProgress t = false).
Proof.
  assert (Hiff : fits_int t →
    countUncompleted t = Z.of_nat (unmatched_total t)
    ∧ (InProgress t = true ↔ unmatched_total t ≠ 0%nat)).
  { intros Hfit. split; [by apply countUncompleted_exact|].
    unfold InProgress. rewrite (countUncompleted_exact t Hfit).
    rewrite negb_true_iff, Z.eqb_neq. lia. }
  split; [done|]. intros Hempty.
  pose proof (unmatched_total_zero t Hempty) as Hzero.
  assert (Hfit : fits_int t) by (unfold fits_int; rewrite Hzero; done).
  destruct (Hiff Hfit) as [_ Hin].
  destruct (InProgress t); [|done]. by destruct (proj1 Hin eq_refl).
Qed.

(** C10: two trees of the same shape with the same number of filtered
    outbound messages at corresponding nodes get the same [InProgress]
    answer, whatever else differs between them. *)
Theorem InProgress_same_outbound_shape t1 t2 :
  same_outbound_shape t1 t2 → InProgress t1 = InProgress t2.
Proof.
  intros Hsame. unfold InProgress.
  by rewrite (countUncompleted_same_shape t1 t2 Hsame).
Qed.

(** C8: [visit] calls the visitor on the nodes of the tree in pre-order (a
    node, then its children in the order of [Children]), threading the
    captured state from call to call and leaving on each node what the
    visitor answered for it; the pre-order list holds every node of the
    tree exactly once (one entry per path); so the three lists of the
    collector are the qualifying addresses in pre-order, duplicates
    kept. *)
Theorem visit_preorder_once :
  (∀ St (fn : visitor St) t s,
     visit_agrees fn (preorder t) (preorder (visit t fn s).1)
                  s (visit t fn s).2
     ∧ paths (visit t fn s).1 = paths t)
  ∧ (∀ t,
       preorder t = t :: (Children t ≫= preorder)
       ∧ NoDup (paths t)
       ∧ (∀ path, path ∈ paths t ↔ is_Some (node_at path t))
       ∧ (λ path, node_at path t) <$> paths t = Some <$> preorder t)
  ∧ (∀ t,
       candidates t
       = mkCandidates (jetton_wallet_candidates t)
                      (sale_candidates abi.NftSaleGetgems t)
                      (sale_candidates abi.NftSale t)).
Proof.
  split_and!.
  - intros St fn t s. split; [apply visit_preorder_agrees|apply visit_paths].
  - intros t. split_and!.
    + by destruct t.
    + apply paths_NoDup.
    + apply paths_valid.
    + apply node_at_paths.
  - apply candidates_spec.
Qed.

(** ** The properties at the sample inputs *)

Lemma CollectAdditionalInfo_error_leaves_tree_witness :
  query_error () Samples.failing_source Samples.root 0%nat
              "source unavailable"%string
  ∧ error_of (CollectAdditionalInfo () (Some Samples.failing_source)
                Samples.root (0%nat, []))
    = Some "source unavailable"%string
  ∧ tree_after (CollectAdditionalInfo () (Some Samples.failing_source)
                  Samples.root (0%nat, []))
    = Samples.root.
Proof.
  assert (Herr : query_error () Samples.failing_source Samples.root 0%nat
                             "source unavailable"%string).
  { left. exists ∅, 1%nat. reflexivity. }
  destruct (CollectAdditionalInfo_error_leaves_tree
              () Samples.failing_source Samples.root 0%nat [] _ Herr)
    as (He & Ht & _).
  exact (conj Herr (conj He Ht)).
Defined.

(** C5 as stated fails: a source whose first query answers with an error
    is asked one query, not three. *)
Lemma three_queries_counterexample :
  length (preorder Samples.root) = 3%nat
  ∧ queries_of (CollectAdditionalInfo () (Some Samples.failing_source)
                  Samples.root (0%nat, []))
    = [QJettonMastersForWallets [Samples.sale_account]]
  ∧ queries_of (CollectAdditionalInfo () (Some Samples.failing_source)
                  Samples.root (0%nat, []))
    ≠ expected_queries Samples.root
  ∧ length (queries_of (CollectAdditionalInfo ()
                          (Some Samples.failing_source)
                          Samples.root (0%nat, []))) ≠ 3%nat.
Proof.
  split_and!; [reflexivity|reflexivity| |];
    vm_compute; discriminate.
Qed.

Lemma queries_issued_in_order_witness :
  (queries_of (CollectAdditionalInfo () (Some Samples.failing_source)
                 Samples.root (0%nat, []))
   = [QJettonMastersForWallets [Samples.sale_account]]
   ∧ source_after (CollectAdditionalInfo () (Some Samples.failing_source)
                     Samples.root (0%nat, [])) = 1%nat)
  ∧ (queries_of (CollectAdditionalInfo ()
                   (Some Samples.marketplace_failing_source)
                   Samples.root (0%nat, []))
     = [QJettonMastersForWallets [Samples.sale_account];
        QGetGemsContracts [Samples.sale_account]]
     ∧ error_of (CollectAdditionalInfo ()
                   (Some Samples.marketplace_failing_source)
                   Samples.root (0%nat, []))
       = Some "marketplace unavailable"%string
     ∧ source_after (CollectAdditionalInfo ()
                       (Some Samples.marketplace_failing_source)
                       Samples.root (0%nat, [])) = 2%nat)
  ∧ (queries_of (CollectAdditionalInfo () (Some Samples.source)
                   Samples.root (0%nat, []))
     = expected_queries Samples.root
     ∧ source_after (CollectAdditionalInfo () (Some Samples.source)
                       Samples.root (0%nat, [])) = 3%nat).
Proof.
  destruct (queries_issued_in_order () Samples.failing_source
              Samples.root 0%nat []) as (Hfirst & _).
  destruct (queries_issued_in_order () Samples.marketplace_failing_source
              Samples.root 0%nat []) as (_ & Hsecond & _).
  destruct (queries_issued_in_order () Samples.source
              Samples.root 0%nat []) as (_ & _ & Hthird & _).
  destruct (Hfirst ∅ "source unavailable"%string 1%nat eq_refl)
    as (Hq1 & _ & Hs1).
  destruct (Hsecond {[Samples.sale_account := Samples.master_account]}
              1%nat ∅ "marketplace unavailable"%string 2%nat
              eq_refl eq_refl)
    as (Hq2 & He2 & Hs2).
  destruct (Hthird {[Samples.sale_account := Samples.master_account]}
              1%nat {[Samples.sale_account := Samples.getgems_sale]}
              2%nat {[Samples.sale_account := Samples.basic_sale]}
              None 3%nat eq_refl eq_refl eq_refl)
    as (Hq3 & _ & Hs3).
  exact (conj (conj Hq1 Hs1)
           (conj (conj Hq2 (conj He2 Hs2)) (conj Hq3 Hs3))).
Defined.

Lemma InProgress_iff_unmatched_witness :
  fits_int Samples.root
  ∧ countUncompleted Samples.root = 1
  ∧ InProgress Samples.root = true
  ∧ InProgress Samples.quiet = false.
Proof.
  assert (Hfit : fits_int Samples.root) by (vm_compute; reflexivity).
  destruct (InProgress_iff_unmatched Samples.root) as [Hroot _].
  destruct (Hroot Hfit) as [Hcount Hiff].
  destruct (InProgress_iff_unmatched Samples.quiet) as [_ Hquiet].
  split_and!.
  - exact Hfit.
  - exact Hcount.
  - apply Hiff. vm_compute. discriminate.
  - apply Hquiet. repeat constructor.
Defined.

Lemma InProgress_same_outbound_shape_witness :
  same_outbound_shape Samples.root Samples.other_root
  ∧ InProgress Samples.root = InProgress Samples.other_root.
Proof.
  assert (Hsame : same_outbound_shape Samples.root Samples.other_root)
    by (repeat constructor).
  exact (conj Hsame (InProgress_same_outbound_shape _ _ Hsame)).
Defined.

Lemma sample_queries_succeed :
  all_succeed () Samples.source Samples.root 0%nat
              {[Samples.sale_account := Samples.master_account]}
              {[Samples.sale_account := Samples.getgems_sale]}
              {[Samples.sale_account := Samples.basic_sale]} 3%nat.
Proof. exists 1%nat, 2%nat. by split_and!. Defined.

Lemma sample_marketplace_only_succeed :
  all_succeed () Samples.marketplace_only_source Samples.root 0%nat
              {[Samples.sale_account := Samples.master_account]}
              {[Samples.sale_account := Samples.getgems_sale]}
              ∅ 3%nat.
Proof. exists 1%nat, 2%nat. by split_and!. Defined.

Lemma sale_node_capabilities :
  has_capability abi.NftSaleGetgems Samples.sale_node
  ∧ has_capability abi.NftSale Samples.sale_node.
Proof.
  split; unfold has_capability; simpl; repeat constructor.
Defined.

Lemma basic_sale_overrides_marketplace_witness :
  ∃ n' info,
    node_at [0%nat]
      (tree_after (CollectAdditionalInfo () (Some Samples.source)
                     Samples.root (0%nat, [])))
      = Some n'
    ∧ AdditionalInfo n' = Some info
    ∧ NftSaleContract_ info = Some Samples.basic_sale.
Proof.
  refine (proj2 (basic_sale_overrides_marketplace
                   () Samples.source Samples.root 0%nat [] _ _ _ 3%nat
                   [0%nat] Samples.sale_node
                   Samples.getgems_sale Samples.basic_sale
                   sample_queries_succeed eq_refl
                   (proj1 sale_node_capabilities)
                   (proj2 sale_node_capabilities) _ _));
    vm_compute; reflexivity.
Defined.

Lemma missing_basic_sale_keeps_marketplace_witness :
  ∃ n' info,
    node_at [0%nat]
      (tree_after (CollectAdditionalInfo ()
                     (Some Samples.marketplace_only_source)
                     Samples.root (0%nat, [])))
      = Some n'
    ∧ AdditionalInfo n' = Some info
    ∧ NftSaleContract_ info = Some Samples.getgems_sale.
Proof.
  refine (proj2 (missing_basic_sale_keeps_marketplace
                   () Samples.marketplace_only_source Samples.root 0%nat []
                   _ _ _ 3%nat [0%nat] Samples.sale_node
                   Samples.getgems_sale
                   sample_marketplace_only_succeed eq_refl
                   (proj1 sale_node_capabilities)
                   (proj2 sale_node_capabilities) _ _));
    vm_compute; reflexivity.
Defined.

Lemma enrichment_annotates_every_node_witness :
  (∃ n' info,
     node_at [0%nat]
       (tree_after (CollectAdditionalInfo () (Some Samples.source)
                      Samples.root (0%nat, [])))
       = Some n'
     ∧ AdditionalInfo n' = Some info
     ∧ JettonMaster info = Some Samples.master_account)
  ∧ (∃ n',
       node_at [1%nat]
         (tree_after (CollectAdditionalInfo () (Some Samples.source)
                        Samples.root (0%nat, [])))
         = Some n'
       ∧ AdditionalInfo n' = Some (mkTraceAdditionalInfo None None)).
Proof.
  destruct (enrichment_annotates_every_node
              () Samples.source Samples.root 0%nat [] _ _ _ 3%nat
              sample_queries_succeed) as [_ Hnodes].
  split.
  - destruct (Hnodes [0%nat] Samples.sale_node eq_refl)
      as (n' & info & Hn' & _ & _ & Hinfo & _ & _ & Hmaster).
    exists n', info. split_and!; [exact Hn'|exact Hinfo|].
    apply (Hmaster Samples.transfer
             (mkDecodedMessageBody abi.JettonTransferMsgOp)
             Samples.sale_account Samples.master_account);
      vm_compute; reflexivity.
  - destruct (Hnodes [1%nat] Samples.plain_node eq_refl)
      as (n' & info & Hn' & _ & _ & Hinfo & _ & Hplain & _).
    exists n'. split; [exact Hn'|].
    rewrite Hinfo. f_equal. apply Hplain.
    + reflexivity.
    + apply not_elem_of_nil.
    + apply not_elem_of_nil.
Defined.

Lemma CollectAdditionalInfo_idempotent_witness :
  same_answers (Some Samples.source)
  ∧ tree_after (twice () (Some Samples.source) Samples.root (0%nat, []))
    = tree_after (CollectAdditionalInfo () (Some Samples.source)
                    Samples.root (0%nat, [])).
Proof.
  assert (Hsame : same_answers (Some Samples.source)).
  { intros ctx keys σ σ'. by split_and!. }
  exact (conj Hsame
           (proj1 (CollectAdditionalInfo_idempotent
                     () (Some Samples.source) Samples.root 0%nat []
                     Hsame))).
Defined.

(** * Further properties of the trace core *)

Lemma omap_length_le {A B} (f : A → option B) (l : list A) :
  (length (omap f l) ≤ length l)%nat.
Proof.
  induction l as [|x l IH]; csimpl; [done|].
  destruct (f x); csimpl; lia.
Qed.

Lemma unmatched_total_child tx ifaces children info i c :
  children !! i = Some c →
  (unmatched_total c ≤ unmatched_total (mkTrace tx ifaces children info))%nat.
Proof.
  rewrite unmatched_total_unfold. revert i.
  induction children as [|c0 cs IH]; intros i Hi; [done|].
  rewrite fmap_cons. cbn [sum_list id].
  destruct i as [|i]; simpl in Hi.
  - simplify_eq. lia.
  - specialize (IH i Hi). lia.
Qed.

Lemma unmatched_total_node_at path :
  ∀ t n, node_at path t = Some n →
         (unmatched_total n ≤ unmatched_total t)%nat.
Proof.
  induction path as [|i path IH]; intros t n Hn; simpl in Hn.
  - by simplify_eq.
  - destruct t as [tx ifaces children info]. simpl in Hn.
    destruct (children !! i) as [c|] eqn:Hi; [|done]. simpl in Hn.
    pose proof (unmatched_total_child tx ifaces children info i c Hi).
    specialize (IH c n Hn). lia.
Qed.

Section CoreExtras.
Context {Ctx Σ : Type}.
Implicit Types (ctx : Ctx) (src : InformationSource Ctx Σ) (σ : Σ).
Implicit Types (log : list Query) (t n : Trace).

Lemma tree_after_cases ctx infoSource t (w : Σ * list Query) :
  tree_after (CollectAdditionalInfo ctx infoSource t w) = t
  ∨ ∃ masters getGems basicNftSales,
      error_of (CollectAdditionalInfo ctx infoSource t w) = None
      ∧ tree_after (CollectAdditionalInfo ctx infoSource t w)
        = (visit t (assign masters getGems basicNftSales) ()).1.
Proof.
  destruct infoSource as [src|]; [|by left]. destruct w as [σ log].
  destruct (query_outcomes ctx src t σ)
    as [[e Herr]|(m & g & b & σ3 & Hok)].
  - destruct (CollectAdditionalInfo_error ctx src t σ log e Herr)
      as (σ' & k & _ & ->). by left.
  - rewrite (CollectAdditionalInfo_success _ _ _ _ log _ _ _ _ Hok).
    right. by exists m, g, b.
Qed.

(** X4: after a successful enrichment no field of an annotation is made
    up: a [JettonMaster] is the jetton answer's entry for the destination
    of the node's inbound token transfer, and an [NftSaleContract] is the
    entry for the node's own account in the answer of a sale interface the
    node implements, the basic-sale one whenever that applies.  A node
    without a sale interface gets no sale data even when an answer holds
    its account. *)
Theorem annotation_values_come_from_answers
    ctx src t σ log masters getGems basicNftSales σ3 path n n' info :
  all_succeed ctx src t σ masters getGems basicNftSales σ3 →
  node_at path t = Some n →
  node_at path (tree_after (CollectAdditionalInfo ctx (Some src) t (σ, log)))
    = Some n' →
  AdditionalInfo n' = Some info →
  (∀ M, JettonMaster info = Some M →
        ∃ D, jetton_candidate n = Some D ∧ masters !! D = Some M)
  ∧ (∀ sale, NftSaleContract_ info = Some sale →
       (has_capability abi.NftSale n
        ∧ basicNftSales !! Account (Tx n) = Some sale)
       ∨ (has_capability abi.NftSaleGetgems n
          ∧ getGems !! Account (Tx n) = Some sale
          ∧ (¬ has_capability abi.NftSale n
             ∨ basicNftSales !! Account (Tx n) = None)))
  ∧ (¬ has_capability abi.NftSale n →
     ¬ has_capability abi.NftSaleGetgems n →
     NftSaleContract_ info = None).
Proof.
  intros Hok Hn Hn' Hinfo.
  destruct (annotated_node_at ctx src t σ log _ _ _ _ path n Hok Hn)
    as (n0 & Hn0 & _ & _ & Hinfo0).
  rewrite Hn' in Hn0. injection Hn0 as <-.
  rewrite Hinfo in Hinfo0. injection Hinfo0 as ->.
  unfold resolved_info, has_capability. simpl.
  change (jetton_candidate (mkTrace (Tx n) (AccountInterfaces n) [] None))
    with (jetton_candidate n).
  split_and!.
  - intros M HM. destruct (jetton_candidate n) as [D|]; [|done].
    by exists D.
  - intros sale. repeat case_decide; simpl;
      destruct (basicNftSales !! Account (Tx n)) eqn:Hb;
      destruct (getGems !! Account (Tx n)) eqn:Hg;
      simpl; intros; simplify_eq; auto.
  - intros Hbs Hgg. by rewrite !decide_False.
Qed.

(** X7: enriching a tree that an earlier call (with any source) already
    annotated asks the same queries and returns the same error as
    enriching the original tree, and when it succeeds it leaves the same
    tree: nothing of the earlier annotations survives. *)
Theorem reenrichment_replaces_annotations
    ctx' infoSource' (w' : Σ * list Query) ctx src t σ log :
  error_of
    (CollectAdditionalInfo ctx (Some src)
       (tree_after (CollectAdditionalInfo ctx' infoSource' t w')) (σ, log))
  = error_of (CollectAdditionalInfo ctx (Some src) t (σ, log))
  ∧ queries_of
      (CollectAdditionalInfo ctx (Some src)
         (tree_after (CollectAdditionalInfo ctx' infoSource' t w')) (σ, log))
    = queries_of (CollectAdditionalInfo ctx (Some src) t (σ, log))
  ∧ source_after
      (CollectAdditionalInfo ctx (Some src)
         (tree_after (CollectAdditionalInfo ctx' infoSource' t w')) (σ, log))
    = source_after (CollectAdditionalInfo ctx (Some src) t (σ, log))
  ∧ (error_of (CollectAdditionalInfo ctx (Some src) t (σ, log)) = None →
     tree_after
       (CollectAdditionalInfo ctx (Some src)
          (tree_after (CollectAdditionalInfo ctx' infoSource' t w'))
          (σ, log))
     = tree_after (CollectAdditionalInfo ctx (Some src) t (σ, log))).
Proof.
  destruct (tree_after_cases ctx' infoSource' t w')
    as [->|(m' & g' & b' & _ & ->)]; [done|].
  rewrite !CollectAdditionalInfo_unfold. cbv zeta.
  rewrite candidates_visit.
  destruct (JettonMastersForWallets src ctx _ σ) as [[m [e1|]] σ1];
    [by split_and!|].
  destruct (GetGemsContracts src ctx _ σ1) as [[g [e2|]] σ2];
    [by split_and!|].
  destruct (NftSaleContracts src ctx _ σ2) as [[b [e3|]] σ3];
    [by split_and!|].
  split_and!; try done. intros _. unfold tree_after. cbn [fst].
  by rewrite (visit_twice (assign m' g' b') (assign m g b)
                (assign_reads_header_only m g b)).
Qed.
End CoreExtras.

(** X1: [hasInterface] is the membership test of the list: it answers
    true exactly when the name occurs in it, so never on the empty list,
    and on a concatenation when it does on either part. *)
Theorem hasInterface_true_iff_member interfacesList name :
  (hasInterface interfacesList name = true ↔ name ∈ interfacesList)
  ∧ hasInterface [] name = false
  ∧ (∀ more, hasInterface (interfacesList ++ more) name
             = hasInterface interfacesList name || hasInterface more name).
Proof.
  split_and!; [apply hasInterface_spec|done|].
  intros more. induction interfacesList as [|iface rest IH]; simpl; [done|].
  by destruct (String.eqb iface name).
Qed.

(** X2: [isDestinationJettonWallet] answers true exactly for an inbound
    message that is present, decoded, has the token-transfer operation and
    a destination; the destination the callers then dereference is that
    one. *)
Theorem isDestinationJettonWallet_true_iff inMsg :
  (isDestinationJettonWallet inMsg = true
   ↔ ∃ m body dest,
       inMsg = Some m
       ∧ DecodedBody m = Some body
       ∧ Operation body = abi.JettonTransferMsgOp
       ∧ Destination m = Some dest)
  ∧ (isDestinationJettonWallet inMsg = true →
     is_Some (inMsgDestination inMsg))
  ∧ isDestinationJettonWallet None = false.
Proof.
  split_and!; [|apply isDestinationJettonWallet_deref|done].
  unfold isDestinationJettonWallet. split.
  - destruct inMsg as [m|]; [|done].
    destruct (DecodedBody m) as [body|] eqn:Hbody; [|done].
    intros [Hop%String.eqb_eq [dest Hd]%bool_decide_eq_true]%andb_true_iff.
    by exists m, body, dest.
  - intros (m & body & dest & -> & -> & Hop & Hd).
    apply andb_true_iff. split; [by apply String.eqb_eq|].
    apply bool_decide_eq_true. by rewrite Hd.
Qed.

(** X5: every address handed to the source comes from the tree: a jetton
    key is the destination of a node's inbound token transfer, a
    marketplace or basic-sale key is the account of a node with that
    capability; no list is longer than the tree has nodes. *)
Theorem queried_keys_come_from_tree t :
  (∀ a, a ∈ jettonWallets (candidates t)
        ↔ ∃ n, n ∈ preorder t ∧ jetton_candidate n = Some a)
  ∧ (∀ a, a ∈ getGemsContracts (candidates t)
          ↔ ∃ n, n ∈ preorder t ∧ has_capability abi.NftSaleGetgems n
                 ∧ Account (Tx n) = a)
  ∧ (∀ a, a ∈ basicNftSale (candidates t)
          ↔ ∃ n, n ∈ preorder t ∧ has_capability abi.NftSale n
                 ∧ Account (Tx n) = a)
  ∧ (length (jettonWallets (candidates t)) ≤ length (preorder t))%nat
  ∧ (length (getGemsContracts (candidates t)) ≤ length (preorder t))%nat
  ∧ (length (basicNftSale (candidates t)) ≤ length (preorder t))%nat.
Proof.
  rewrite candidates_spec. simpl.
  unfold jetton_wallet_candidates, sale_candidates.
  split_and!.
  - intros a. by rewrite list_elem_of_omap.
  - intros a. rewrite list_elem_of_fmap. split.
    + intros (n & -> & [Hcap Hn]%list_elem_of_filter). by exists n.
    + intros (n & Hn & Hcap & <-). exists n. split; [done|].
      by apply list_elem_of_filter.
  - intros a. rewrite list_elem_of_fmap. split.
    + intros (n & -> & [Hcap Hn]%list_elem_of_filter). by exists n.
    + intros (n & Hn & Hcap & <-). exists n. split; [done|].
      by apply list_elem_of_filter.
  - apply omap_length_le.
  - rewrite length_fmap. apply length_filter.
  - rewrite length_fmap. apply length_filter.
Qed.

(** X6: as long as the count of the tree fits Go's [int], the count of
    any of its subtrees is at most the count of the tree, so a tree with a
    subtree in progress is in progress. *)
Theorem subtree_in_progress_implies_tree t path n :
  fits_int t →
  node_at path t = Some n →
  0 ≤ countUncompleted n ≤ countUncompleted t
  ∧ (InProgress n = true → InProgress t = true).
Proof.
  intros Hfit Hn.
  pose proof (unmatched_total_node_at path t n Hn) as Hle.
  assert (Hfitn : fits_int n) by (unfold fits_int in *; lia).
  unfold InProgress.
  rewrite (countUncompleted_exact t Hfit), (countUncompleted_exact n Hfitn).
  split; [lia|]. rewrite !negb_true_iff, !Z.eqb_neq. lia.
Qed.

(** * Properties of the API server *)

Section ApiFacts.
Context {Logger OasHandler OasMiddleware OasErrorHandler : Type}.
Context {ResponseWriter Request : Type}.
Context {TransactionSource BlockHeadersSource BlockSource : Type}.
Context {TraceSource MemPoolSource LiteServer : Type}.
Context {SseHandler SseHandlerFunc : Type}.

Local Abbreviation Handler :=
  (api.AsyncHandler (ResponseWriter:=ResponseWriter) (Request:=Request)).
Local Abbreviation Middleware :=
  (api.AsyncMiddleware (ResponseWriter:=ResponseWriter) (Request:=Request)).
Local Abbreviation Options :=
  (api.ServerOptions (OasMiddleware:=OasMiddleware)
     (ResponseWriter:=ResponseWriter) (Request:=Request)
     (TransactionSource:=TransactionSource)
     (BlockHeadersSource:=BlockHeadersSource) (BlockSource:=BlockSource)
     (TraceSource:=TraceSource) (MemPoolSource:=MemPoolSource)
     (LiteServer:=LiteServer)).
Local Abbreviation Deps :=
  (api.Externals (Logger:=Logger) (OasHandler:=OasHandler)
     (OasMiddleware:=OasMiddleware) (OasErrorHandler:=OasErrorHandler)
     (ResponseWriter:=ResponseWriter) (Request:=Request)
     (TransactionSource:=TransactionSource)
     (BlockHeadersSource:=BlockHeadersSource) (BlockSource:=BlockSource)
     (TraceSource:=TraceSource) (MemPoolSource:=MemPoolSource)
     (SseHandler:=SseHandler) (SseHandlerFunc:=SseHandlerFunc)).

Implicit Types (handler : Handler) (md : Middleware).
Implicit Types (mds more : list Middleware).
Implicit Types (ext : Deps) (log : Logger) (opts : list (Options → Options)).

(** X8: [chainMiddlewares] wraps the handler in the middlewares from the
    first to the last: the first is innermost and the last outermost, a
    chain over a concatenation is the chain over the second part of the
    chain over the first, and an outermost middleware that never looks at
    the handler it wraps hides all that is inside. *)
Theorem chainMiddlewares_order handler md mds more :
  api.chainMiddlewares handler [] = handler
  ∧ api.chainMiddlewares handler (md :: mds)
    = api.chainMiddlewares (md handler) mds
  ∧ api.chainMiddlewares handler (mds ++ [md])
    = md (api.chainMiddlewares handler mds)
  ∧ api.chainMiddlewares handler (mds ++ more)
    = api.chainMiddlewares (api.chainMiddlewares handler mds) more
  ∧ ((∀ h h', md h = md h') →
     api.chainMiddlewares handler (mds ++ [md]) = md handler).
Proof.
  unfold api.chainMiddlewares. split_and!; [done|done| | |].
  - by rewrite foldl_snoc.
  - by rewrite foldl_app.
  - intros Hconst. rewrite foldl_snoc. apply Hconst.
Qed.

(** X9: [NewServer] fails exactly when [oas.NewServer] does, with the
    very error of that call, which is given the logging and the metrics
    middleware followed by the ones of the options; it returns a server
    exactly when it returns no error.  The sources play no part. *)
Theorem NewServer_fails_iff_oas_fails ext log (h : OasHandler) opts :
  (api.NewServer ext log h opts).2
  = (api.oas_NewServer ext h
       ([api.ogenLoggingMiddleware ext log; api.ogenMetricsMiddleware ext]
          ++ api.ogenMiddlewares (api.applied opts))
       (api.ogenErrorsHandler ext)).2
  ∧ ((api.NewServer ext log h opts).1 = None
     ↔ is_Some (api.NewServer ext log h opts).2).
Proof.
  unfold api.NewServer, api.applied. cbv zeta.
  destruct (api.oas_NewServer ext h _ _) as [ogenServer [e|]]; simpl.
  - split; [done|]. split; [by eexists|done].
  - split; [done|]. split; [done|by intros [? ?]].
Qed.

(** X10: a server that [NewServer] returns has one SSE route for each
    source that is set and none for a source that is nil, then the
    websocket route and last the catch-all route, which is served by the
    ogen server; no pattern is registered twice. *)
Theorem NewServer_routes ext log (h : OasHandler) opts serv :
  api.NewServer ext log h opts = (Some serv, None) →
  (api.mux serv).*1
  = api.sse_patterns (api.applied opts) ++ ["/v2/websocket"; "/"]%string
  ∧ NoDup (api.mux serv).*1
  ∧ last (api.mux serv)
    = Some ("/"%string,
            (api.oas_NewServer ext h
               ([api.ogenLoggingMiddleware ext log;
                 api.ogenMetricsMiddleware ext]
                  ++ api.ogenMiddlewares (api.applied opts))
               (api.ogenErrorsHandler ext)).1)
  ∧ api.logger serv = log.
Proof.
  unfold api.NewServer, api.sse_patterns, api.applied, api.Handle. cbv zeta.
  destruct (api.oas_NewServer ext h _ _) as [ogenServer [e|]]; [done|].
  intros [= <-].
  destruct (foldl _ api.noOptions opts)
    as [om am [tx|] [bh|] [bs|] [tr|] [mp|] ls];
    simpl; (split_and!; [done|compute_done|done|done]).
Qed.

(** X11: in a server that [NewServer] returns, every route but the
    catch-all one is a long-lived connection that accepts the token in the
    query, and its handler is wrapped in the logging middleware
    (innermost), then the metrics middleware, then the middlewares of the
    options in their order; the server keeps that same chain for the
    handlers registered later. *)
Theorem NewServer_async_routes_chain ext log (h : OasHandler) opts serv :
  api.NewServer ext log h opts = (Some serv, None) →
  api.asyncMiddlewares_ serv
  = [api.asyncLoggingMiddleware ext log; api.asyncMetricsMiddleware ext]
      ++ api.asyncMiddlewares (api.applied opts)
  ∧ ∀ pattern route,
      (pattern, route) ∈ api.mux serv → pattern ≠ "/"%string →
      ∃ base,
        route
        = api.wrapAsync api.LongLivedConnection true
            (api.chainMiddlewares
               (api.asyncMetricsMiddleware ext
                  (api.asyncLoggingMiddleware ext log base))
               (api.asyncMiddlewares (api.applied opts))).
Proof.
  unfold api.NewServer, api.applied, api.Handle. cbv zeta.
  destruct (api.oas_NewServer ext h _ _) as [ogenServer [e|]]; [done|].
  intros [= <-]. split; [done|]. intros pattern route Hin Hne.
  cbn [api.mux] in Hin.
  repeat match type of Hin with
         | context [match ?o with Some _ => _ | None => _ end] =>
             destruct o
         end;
    repeat (apply elem_of_app in Hin as [Hin|Hin]);
    repeat match type of Hin with
           | _ ∈ [] => by apply elem_of_nil in Hin
           | _ ∈ [_] => apply list_elem_of_singleton in Hin
           end;
    simplify_eq; eauto.
Qed.
End ApiFacts.

(** * Properties of the configuration loader *)


Lemma Split_length s :
  length (config.Split s ",") = S (config.commas s).
Proof.
  induction s as [|c rest IH]; simpl; [done|].
  destruct (Ascii.eqb c ","); simpl; [by rewrite IH|].
  destruct (config.Split rest ",") as [|field fields]; simpl in *; lia.
Qed.

Section ConfigFacts.
Context {LiteServer : Type}.
Implicit Types (ext : config.Externals (LiteServer:=LiteServer)).
Implicit Types (fields lines : list string).
Implicit Types (accs : list tongo.AccountID).

Lemma parsed_app ext fields1 fields2 :
  config.parsed ext (fields1 ++ fields2)
  = config.parsed ext fields1 ++ config.parsed ext fields2.
Proof. unfold config.parsed. apply omap_app. Qed.


Lemma parsed_length ext fields :
  Forall (config.parses ext) fields →
  length (config.parsed ext fields) = length fields.
Proof.
  unfold config.parsed. induction 1 as [|s fields [a Ha] _ IH]; [done|].
  csimpl. rewrite Ha. csimpl. by rewrite IH.
Qed.



Lemma parseAccountsEnv_range_ok ext fields :
  ∀ acc accs,
    config.parseAccountsEnv_range ext fields acc = inr accs
    ↔ Forall (config.parses ext) fields
      ∧ accs = acc ++ config.parsed ext fields.
Proof.
  induction fields as [|s rest IH]; intros acc accs; simpl.
  - rewrite app_nil_r. split; [by intros [= ->]|by intros [_ ->]].
  - unfold config.parsed. csimpl.
    destruct (config.ParseAddress ext s) as [e|a] eqn:Hs.
    + split; [done|]. intros [Hall _].
      inversion Hall as [|? ? [a Ha] _]; subst. congruence.
    + rewrite IH. rewrite <- (assoc_L (++)). split.
      * intros [Hall ->]. split; [|done].
        constructor; [by exists a|done].
      * intros [Hall ->]. split; [|done]. by inversion Hall.
Qed.

Lemma parseAccountsEnv_range_err ext fields :
  ∀ acc e,
    config.parseAccountsEnv_range ext fields acc = inl e
    ↔ ∃ i s, fields !! i = Some s
             ∧ config.ParseAddress ext s = inl e
             ∧ Forall (config.parses ext) (take i fields).
Proof.
  induction fields as [|s rest IH]; intros acc e; simpl.
  - split; [done|]. by intros (i & s & ? & _).
  - destruct (config.ParseAddress ext s) as [e'|a] eqn:Hs.
    + split.
      * intros [= ->]. exists 0%nat, s. by split_and!.
      * intros (i & s' & Hi & He & Hall). destruct i as [|i]; simpl in *.
        { simplify_eq. congruence. }
        inversion Hall as [|? ? [a Ha] _]; subst. congruence.
    + rewrite IH. split.
      * intros (i & s' & Hi & He & Hall). exists (S i), s'.
        split_and!; [done..|]. simpl. constructor; [by exists a|done].
      * intros (i & s' & Hi & He & Hall). destruct i as [|i]; simpl in *.
        { simplify_eq. congruence. }
        exists i, s'. split_and!; [done..|]. by inversion Hall.
Qed.

(** X12: the parser of the ACCOUNTS variable is all or nothing: it
    succeeds exactly when every comma-separated field parses, with the
    parsed accounts in the order of the fields, one per field and so at
    least one; otherwise it returns the error of the first field that
    does not parse. *)
Theorem parseAccountsEnv_all_or_nothing ext v :
  (∀ accs,
     config.parseAccountsEnv ext v = inr accs
     ↔ Forall (config.parses ext) (config.Split v ",")
       ∧ accs = config.parsed ext (config.Split v ","))
  ∧ (∀ accs,
       config.parseAccountsEnv ext v = inr accs →
       length accs = S (config.commas v))
  ∧ (∀ e,
       config.parseAccountsEnv ext v = inl e
       ↔ ∃ i s, config.Split v "," !! i = Some s
                ∧ config.ParseAddress ext s = inl e
                ∧ Forall (config.parses ext)
                         (take i (config.Split v ","))).
Proof.
  unfold config.parseAccountsEnv. split_and!.
  - intros accs. apply parseAccountsEnv_range_ok.
  - intros accs [Hall ->]%parseAccountsEnv_range_ok.
    simpl. by rewrite parsed_length, Split_length.
  - intros e. apply parseAccountsEnv_range_err.
Qed.


(** X14: [parseAccountsFromFile] fails exactly when the file does not
    open or its scan ends with an error, in which case the accounts read
    so far are dropped; the message names the file and carries the cause;
    an empty name stands for accounts.txt. *)
Theorem parseAccountsFromFile_errors ext v :
  (∀ err,
     config.os_Open ext (config.accounts_file_name v) = inl err →
     config.parseAccountsFromFile ext v
     = inl ("error opening accounts file '"
            +:+ config.accounts_file_name v +:+ "': " +:+ err)%string)
  ∧ (∀ file err,
       config.os_Open ext (config.accounts_file_name v) = inr file →
       config.scan_err file = Some err →
       config.parseAccountsFromFile ext v
       = inl ("error reading accounts file '"
              +:+ config.accounts_file_name v +:+ "': " +:+ err)%string)
  ∧ config.parseAccountsFromFile ext ""
    = config.parseAccountsFromFile ext "accounts.txt"
  ∧ ((∃ e, config.parseAccountsFromFile ext v = inl e)
     ↔ (∃ err, config.os_Open ext (config.accounts_file_name v) = inl err)
       ∨ (∃ file err,
            config.os_Open ext (config.accounts_file_name v) = inr file
            ∧ config.scan_err file = Some err)).
Proof.
  unfold config.parseAccountsFromFile.
  fold (config.accounts_file_name v). cbv zeta. split_and!.
  - by intros err ->.
  - by intros file err -> ->.
  - done.
  - destruct (config.os_Open ext (config.accounts_file_name v))
      as [err|file]; [split; eauto|].
    destruct (config.scan_err file) as [err|] eqn:Hscan.
    + split; eauto 10.
    + split; [by intros [? ?]|].
      intros [[? ?]|(? & ? & ? & ?)]; simplify_eq.
Qed.

End ConfigFacts.

(** ** The further properties at the sample inputs *)

Lemma annotation_values_come_from_answers_witness :
  (∃ D, jetton_candidate Samples.sale_node = Some D
        ∧ ({[Samples.sale_account := Samples.master_account]}
             : gmap tongo.AccountID tongo.AccountID) !! D
          = Some Samples.master_account)
  ∧ has_capability abi.NftSale Samples.sale_node.
Proof.
  destruct (annotation_values_come_from_answers
              () Samples.source Samples.root 0%nat [] _ _ _ 3%nat
              [0%nat] Samples.sale_node
              (mkTrace (Tx Samples.sale_node)
                       (AccountInterfaces Samples.sale_node) []
                       (Some (mkTraceAdditionalInfo
                                (Some Samples.master_account)
                                (Some Samples.basic_sale))))
              (mkTraceAdditionalInfo (Some Samples.master_account)
                                     (Some Samples.basic_sale))
              sample_queries_succeed eq_refl eq_refl eq_refl)
    as (Hmaster & Hsale & _).
  split; [exact (Hmaster _ eq_refl)|].
  destruct (Hsale _ eq_refl) as [[Hcap _]|(_ & _ & [Hnot|Hnone])].
  - exact Hcap.
  - destruct Hnot. exact (proj2 sale_node_capabilities).
  - vm_compute in Hnone. discriminate Hnone.
Defined.

Lemma subtree_in_progress_implies_tree_witness :
  fits_int Samples.root
  ∧ node_at [0%nat] Samples.root = Some Samples.sale_node
  ∧ 0 ≤ countUncompleted Samples.sale_node ≤ countUncompleted Samples.root
  ∧ InProgress Samples.root = true.
Proof.
  assert (Hfit : fits_int Samples.root) by (vm_compute; reflexivity).
  destruct (subtree_in_progress_implies_tree
              Samples.root [0%nat] Samples.sale_node Hfit eq_refl)
    as [Hle Hin].
  exact (conj Hfit (conj eq_refl (conj Hle (Hin eq_refl)))).
Defined.

Lemma NewServer_routes_witness :
  ∃ serv,
    api.NewServer api_samples.externals () () api_samples.options
      = (Some serv, None)
    ∧ (api.mux serv).*1
      = ["/v2/sse/accounts/traces"; "/v2/websocket"; "/"]%string.
Proof.
  destruct (api.NewServer api_samples.externals () () api_samples.options)
    as [[serv|] [e|]] eqn:Hnew;
    try (vm_compute in Hnew; discriminate Hnew).
  exists serv. split; [reflexivity|].
  exact (proj1 (NewServer_routes api_samples.externals () ()
                  api_samples.options serv Hnew)).
Defined.

Lemma NewServer_async_routes_chain_witness :
  ∃ serv,
    api.NewServer api_samples.externals () () api_samples.options
      = (Some serv, None)
    ∧ api.asyncMiddlewares_ serv
      = [api_samples.mark "log"; api_samples.mark "metrics";
         api_samples.mark "auth"].
Proof.
  destruct (api.NewServer api_samples.externals () () api_samples.options)
    as [[serv|] [e|]] eqn:Hnew;
    try (vm_compute in Hnew; discriminate Hnew).
  exists serv. split; [reflexivity|].
  exact (proj1 (NewServer_async_routes_chain api_samples.externals () ()
                  api_samples.options serv Hnew)).
Defined.

